(** * The bounded job worker pool of pkg/concurrency/goroutine_pool.go

    A shallow embedding of [WorkerPool] and [DatabaseBenchmarkPool].

    The pool is concurrent Go code.  Every method is embedded as an
    executable function on an explicit pool state; a [select] statement is
    embedded as the list of the cases that are ready (Go picks one of them
    at random, and takes [default] only when none is ready).  The
    interleavings of the caller's threads and the worker goroutines are the
    labelled transition relation [step]. *)

From Stdlib Require Import ZArith List Bool Lia String DecimalString.
From stdpp Require Import base list gmap strings.

Local Open Scope Z_scope.

(** ** Go values *)

(** [int] and [int64] are 64-bit two's complement integers; arithmetic on
    them wraps around. *)
Definition int64_min : Z := - 2 ^ 63.
Definition int64_max : Z := 2 ^ 63 - 1.

Definition is_int64 (z : Z) : Prop := int64_min <= z <= int64_max.

Definition wrap64 (z : Z) : Z := (z + 2 ^ 63) mod 2 ^ 64 - 2 ^ 63.

(** [time.Duration] is an [int64] count of nanoseconds. *)
Definition time_Duration : Type := Z.

(** [interface{}] payloads. *)
Inductive any : Type :=
  | nil_value
  | int_value (z : Z)
  | string_value (s : string).

(** The dynamic type of a Go value of interface type [error]. *)
Inductive error_type : Type :=
  | errors_errorString            (* *errors.errorString *)
  | context_deadlineExceededError (* context.deadlineExceededError *)
  | named_error (name : string).  (* any type a unit-of-work defines *)

(** An [error] value: its dynamic type and the text of its [Error()]. *)
Record error : Type := mk_error { dyn_type : error_type; message : string }.

(** [errors.New]; [fmt.Errorf] without a [%w] verb returns [errors.New] of
    the formatted text. *)
Definition errors_New (s : string) : error := mk_error errors_errorString s.
Definition fmt_Errorf (formatted : string) : error := errors_New formatted.

(** [context.Canceled] and [context.DeadlineExceeded]. *)
Definition context_Canceled : error := errors_New "context canceled".
Definition context_DeadlineExceeded : error :=
  mk_error context_deadlineExceededError "context deadline exceeded".

(** The [%d] verb. *)
Definition fmt_d (z : Z) : string := NilZero.string_of_int (Z.to_int z).

(** A [context.Context] as the pool sees it: [Err] is [None] until the
    context is done; [deadline] is the time left until its deadline. *)
Record Context : Type := mk_Context {
  Err : option error;
  deadline : option time_Duration
}.

Definition ctx_cancel (c : Context) : Context :=
  match Err c with
  | Some _ => c
  | None => mk_Context (Some context_Canceled) (deadline c)
  end.

Definition context_WithTimeout (parent : Context) (timeout : time_Duration)
  : Context :=
  mk_Context (Err parent)
    (Some (match deadline parent with
           | Some d => Z.min d timeout
           | None => timeout
           end)).

(** Buffered channels.  [make] panics on a negative size; allocation of
    the buffer is taken to succeed. *)
Record chan (A : Type) : Type := mk_chan {
  buf : list A;
  cap : Z;
  closed : bool
}.
Arguments mk_chan {A} _ _ _.
Arguments buf {A} _.
Arguments cap {A} _.
Arguments closed {A} _.

Definition make_chan {A : Type} (size : Z) : option (chan A) :=
  if size <? 0 then None else Some (mk_chan [] size false).

Definition len {A : Type} (c : chan A) : Z := Z.of_nat (length (buf c)).

Definition chan_push {A : Type} (x : A) (c : chan A) : chan A :=
  mk_chan (buf c ++ [x]) (cap c) (closed c).

Definition chan_pop {A : Type} (c : chan A) : chan A :=
  mk_chan (tail (buf c)) (cap c) (closed c).

Definition chan_close {A : Type} (c : chan A) : chan A :=
  mk_chan (buf c) (cap c) true.

(** ** Job, Result, WorkerPool *)

(** What a call of a unit-of-work does: it returns a payload and an error
    after some elapsed time, or it never returns. *)
Inductive task_outcome : Type :=
  | task_returns (data : any) (err : option error) (elapsed : time_Duration)
  | task_never_returns.

Record Job : Type := mk_Job {
  ID : Z;
  TaskFunc : Context -> task_outcome;
  Timeout : time_Duration
}.

Record Result : Type := mk_Result {
  JobID : Z;
  Data : any;
  Error : option error;
  Duration : time_Duration
}.

(** The zero value [Result{}], which a receive on a closed, drained channel
    yields. *)
Definition zero_Result : Result := mk_Result 0 nil_value None 0.

(** Where a worker goroutine stands in [worker]. *)
Inductive goroutine : Type :=
  | Idle                      (* at the outer select *)
  | Executing (job : Job)     (* inside executeJob *)
  | Delivering (r : Result)   (* at the inner select *)
  | Exited                    (* returned; the deferred wg.Done() has run *)
  | Panicked.                 (* panicked; the deferred wg.Done() has run *)

Definition alive (g : goroutine) : bool :=
  match g with
  | Exited | Panicked => false
  | _ => true
  end.

(** [wg] is the counter of the [sync.WaitGroup]; [mu] is [true] while Stop
    holds the write lock inside [wg.Wait()] (Start and Submit hold the lock
    only for an atomic step); [goroutines] lists every worker goroutine
    spawned so far. *)
Record WorkerPool : Type := mk_WorkerPool {
  workers : Z;
  jobQueue : chan Job;
  results : chan Result;
  wg : Z;
  ctx : Context;
  started : bool;
  mu : bool;
  goroutines : list goroutine
}.

Definition with_jobQueue (q : chan Job) (wp : WorkerPool) : WorkerPool :=
  mk_WorkerPool (workers wp) q (results wp) (wg wp) (ctx wp) (started wp)
    (mu wp) (goroutines wp).

Definition with_results (q : chan Result) (wp : WorkerPool) : WorkerPool :=
  mk_WorkerPool (workers wp) (jobQueue wp) q (wg wp) (ctx wp) (started wp)
    (mu wp) (goroutines wp).

Definition with_wg (n : Z) (wp : WorkerPool) : WorkerPool :=
  mk_WorkerPool (workers wp) (jobQueue wp) (results wp) n (ctx wp)
    (started wp) (mu wp) (goroutines wp).

Definition with_ctx (c : Context) (wp : WorkerPool) : WorkerPool :=
  mk_WorkerPool (workers wp) (jobQueue wp) (results wp) (wg wp) c
    (started wp) (mu wp) (goroutines wp).

Definition with_started (b : bool) (wp : WorkerPool) : WorkerPool :=
  mk_WorkerPool (workers wp) (jobQueue wp) (results wp) (wg wp) (ctx wp) b
    (mu wp) (goroutines wp).

Definition with_mu (b : bool) (wp : WorkerPool) : WorkerPool :=
  mk_WorkerPool (workers wp) (jobQueue wp) (results wp) (wg wp) (ctx wp)
    (started wp) b (goroutines wp).

Definition with_goroutines (gs : list goroutine) (wp : WorkerPool)
  : WorkerPool :=
  mk_WorkerPool (workers wp) (jobQueue wp) (results wp) (wg wp) (ctx wp)
    (started wp) (mu wp) gs.

(** ** NewWorkerPool

    [numCPU] is what [runtime.NumCPU()] reports; [parent] is the caller's
    context, from which the pool's context is derived.  [None] is a panic
    of [make]. *)
Definition NewWorkerPool (numCPU : Z) (parent : Context) (workers0 : Z)
  : option WorkerPool :=
  let workers := if workers0 <=? 0 then numCPU else workers0 in
  match make_chan (wrap64 (workers * 10)),
        make_chan (wrap64 (workers * 2)) with
  | Some jq, Some rs =>
      Some (mk_WorkerPool workers jq rs 0 parent false false [])
  | _, _ => None
  end.

(** ** Start *)

(** One round of the loop body: [wp.wg.Add(1); go wp.worker(i)]. *)
Definition spawn_worker (wp : WorkerPool) : WorkerPool :=
  with_goroutines (goroutines wp ++ [Idle]) (with_wg (wg wp + 1) wp).

Fixpoint spawn_workers (n : nat) (wp : WorkerPool) : WorkerPool :=
  match n with
  | O => wp
  | S n' => spawn_workers n' (spawn_worker wp)
  end.

Definition Start (wp : WorkerPool) : WorkerPool :=
  if started wp then wp
  else with_started true (spawn_workers (Z.to_nat (workers wp)) wp).

(** ** executeJob

    [None] when the unit-of-work never returns: the call of [TaskFunc] is
    synchronous, so [executeJob] then never returns either. *)
Definition job_context (wp : WorkerPool) (job : Job) : Context :=
  if 0 <? Timeout job then context_WithTimeout (ctx wp) (Timeout job)
  else ctx wp.

Definition executeJob (wp : WorkerPool) (job : Job) : option Result :=
  match TaskFunc job (job_context wp job) with
  | task_returns data err duration =>
      Some (mk_Result (ID job) data err duration)
  | task_never_returns => None
  end.

(** ** worker

    [worker_cases g wp] lists what the goroutine standing at [g] can do
    next: its new position and the new pool.  The empty list is a goroutine
    that is blocked. *)
Definition wg_Done (wp : WorkerPool) : WorkerPool := with_wg (wg wp - 1) wp.

Definition worker_cases (g : goroutine) (wp : WorkerPool)
  : list (goroutine * WorkerPool) :=
  match g with
  | Idle =>
      (* case job, ok := <-wp.jobQueue *)
      (match buf (jobQueue wp) with
       | job :: _ => [(Executing job, with_jobQueue (chan_pop (jobQueue wp)) wp)]
       | [] => if closed (jobQueue wp) then [(Exited, wg_Done wp)] else []
       end)
      ++
      (* case <-wp.ctx.Done() *)
      (match Err (ctx wp) with
       | Some _ => [(Exited, wg_Done wp)]
       | None => []
       end)
  | Executing job =>
      match executeJob wp job with
      | Some result => [(Delivering result, wp)]
      | None => []
      end
  | Delivering result =>
      (* case wp.results <- result *)
      (if closed (results wp) then [(Panicked, wg_Done wp)]
       else if len (results wp) <? cap (results wp)
            then [(Idle, with_results (chan_push result (results wp)) wp)]
            else [])
      ++
      (* case <-wp.ctx.Done() *)
      (match Err (ctx wp) with
       | Some _ => [(Exited, wg_Done wp)]
       | None => []
       end)
  | Exited | Panicked => []
  end.

(** ** Submit *)

Inductive call_result (A : Type) : Type :=
  | returns (a : A)
  | panics (msg : string).
Arguments returns {A} _.
Arguments panics {A} _.

Definition errNotStarted : error := fmt_Errorf "worker pool not started".
Definition errQueueFull : error := fmt_Errorf "job queue full".

(** The cases of Submit's select that are ready, each with what Submit
    returns and the pool it leaves; [default] when none is. *)
Definition Submit (wp : WorkerPool) (job : Job)
  : list (call_result (option error) * WorkerPool) :=
  if negb (started wp) then [(returns (Some errNotStarted), wp)]
  else
    let ready :=
      (* case wp.jobQueue <- job *)
      (if closed (jobQueue wp) then [(panics "send on closed channel", wp)]
       else if len (jobQueue wp) <? cap (jobQueue wp)
            then [(returns None,
                   with_jobQueue (chan_push job (jobQueue wp)) wp)]
            else [])
      ++
      (* case <-wp.ctx.Done() *)
      (match Err (ctx wp) with
       | Some e => [(returns (Some e), wp)]
       | None => []
       end) in
    match ready with
    | [] => [(returns (Some errQueueFull), wp)]
    | _ => ready
    end.

(** ** GetResult and GetResults *)

(** The cases of GetResult's select that are ready.  A receive on a closed
    and drained channel yields the zero value. *)
Definition GetResult (wp : WorkerPool)
  : list ((Result * option error) * WorkerPool) :=
  (* case result := <-wp.results *)
  (match buf (results wp) with
   | result :: _ =>
       [((result, None), with_results (chan_pop (results wp)) wp)]
   | [] => if closed (results wp) then [((zero_Result, None), wp)] else []
   end)
  ++
  (* case <-wp.ctx.Done() *)
  (match Err (ctx wp) with
   | Some e => [((zero_Result, Some e), wp)]
   | None => []
   end).

(** GetResults runs its select once per round while the workers keep
    running, so it is embedded over the sequence of cases its rounds take:
    a result received from [wp.results], or [timeoutCtx] being done (the
    timeout elapsed, or the pool's context was cancelled). *)
Inductive select_event : Type :=
  | received (result : Result)
  | timeoutCtx_Done.

Inductive collect_outcome : Type :=
  | collect_returns (results : list Result) (err : option error)
  | collect_panics (msg : string)
  | collect_blocked.

Definition errCollectTimeout (got count : Z) : error :=
  fmt_Errorf ("timeout waiting for results, got " +:+ fmt_d got +:+ "/"
              +:+ fmt_d count).

(** [rounds] is the number of rounds the loop [for i := 0; i < count; i++]
    still has to run. *)
Fixpoint GetResults_loop (rounds : nat) (count : Z) (results : list Result)
    (events : list select_event) : collect_outcome :=
  match rounds with
  | O => collect_returns results None
  | S rounds' =>
      match events with
      | [] => collect_blocked
      | received result :: events' =>
          GetResults_loop rounds' count (results ++ [result]) events'
      | timeoutCtx_Done :: _ =>
          collect_returns results
            (Some (errCollectTimeout (Z.of_nat (length results)) count))
      end
  end.

(** [make([]Result, 0, count)] panics on a negative capacity. *)
Definition GetResults (count : Z) (events : list select_event)
  : collect_outcome :=
  if count <? 0 then collect_panics "makeslice: cap out of range"
  else GetResults_loop (Z.to_nat count) count [] events.

(** ** Stop

    Stop holds the write lock from its first statement to its return, and
    blocks in [wg.Wait()] in between.  [Stop_begin] is Stop up to
    [wg.Wait()]; [Stop_end] is Stop from [wg.Wait()] on, and is [None]
    while the WaitGroup counter is not zero. *)
Inductive stop_phase : Type :=
  | stop_returned (wp : WorkerPool)
  | stop_panicked (msg : string) (wp : WorkerPool)
  | stop_waiting (wp : WorkerPool).

Definition Stop_begin (wp : WorkerPool) : stop_phase :=
  if negb (started wp) then stop_returned wp
  else
    let wp1 := with_ctx (ctx_cancel (ctx wp)) wp in
    if closed (jobQueue wp1)
    then stop_panicked "close of closed channel" wp1
    else stop_waiting
           (with_mu true (with_jobQueue (chan_close (jobQueue wp1)) wp1)).

Definition Stop_end (wp : WorkerPool) : option stop_phase :=
  if wg wp =? 0 then
    Some (if closed (results wp)
          then stop_panicked "close of closed channel" (with_mu false wp)
          else stop_returned
                 (with_mu false
                    (with_started false
                       (with_results (chan_close (results wp)) wp))))
  else None.

(** ** The pool with its callers and workers

    One transition is one atomic action of a caller or of a worker
    goroutine.  Start, Submit and the first half of Stop need the lock,
    which is free when [mu] is [false].  A panic of a worker ends the Go
    process; the relation keeps stepping, so it has every behaviour of the
    program and some more. *)
Inductive label : Type :=
  | call_Start
  | call_Submit (job : Job) (r : call_result (option error))
  | Stop_enters_Wait
  | Stop_returns
  | Stop_panics
  | worker_runs (i : nat)
  | receives (r : Result * option error)
  | parent_done (e : error).

Definition ctx_done (e : error) (c : Context) : Context :=
  mk_Context (Some e) (deadline c).

Inductive step : WorkerPool -> label -> WorkerPool -> Prop :=
  | step_Start wp :
      mu wp = false ->
      step wp call_Start (Start wp)
  | step_Submit wp job r wp' :
      mu wp = false ->
      In (r, wp') (Submit wp job) ->
      step wp (call_Submit job r) wp'
  | step_Stop_at_once wp wp' :
      mu wp = false ->
      Stop_begin wp = stop_returned wp' ->
      step wp Stop_returns wp'
  | step_Stop_begin wp wp' :
      mu wp = false ->
      Stop_begin wp = stop_waiting wp' ->
      step wp Stop_enters_Wait wp'
  | step_Stop_begin_panic wp msg wp' :
      mu wp = false ->
      Stop_begin wp = stop_panicked msg wp' ->
      step wp Stop_panics wp'
  | step_Stop_end wp wp' :
      mu wp = true ->
      Stop_end wp = Some (stop_returned wp') ->
      step wp Stop_returns wp'
  | step_Stop_end_panic wp msg wp' :
      mu wp = true ->
      Stop_end wp = Some (stop_panicked msg wp') ->
      step wp Stop_panics wp'
  | step_worker wp (i : nat) g g' wp' :
      goroutines wp !! i = Some g ->
      In (g', wp') (worker_cases g wp) ->
      step wp (worker_runs i)
        (with_goroutines (<[i:=g']> (goroutines wp')) wp')
  | step_receive wp r wp' :
      In (r, wp') (GetResult wp) ->
      step wp (receives r) wp'
  | step_parent_done wp e :
      Err (ctx wp) = None ->
      e = context_Canceled \/ e = context_DeadlineExceeded ->
      step wp (parent_done e) (with_ctx (ctx_done e (ctx wp)) wp).

Inductive run : WorkerPool -> list label -> WorkerPool -> Prop :=
  | run_nil wp : run wp [] wp
  | run_snoc wp tr wp' l wp'' :
      run wp tr wp' -> step wp' l wp'' -> run wp (tr ++ [l]) wp''.

(** The states a pool made by NewWorkerPool can be in. *)
Definition created (wp : WorkerPool) : Prop :=
  exists numCPU parent workers0,
    0 < numCPU /\ is_int64 numCPU /\ is_int64 workers0 /\
    NewWorkerPool numCPU parent workers0 = Some wp.

Definition reachable (wp : WorkerPool) : Prop :=
  exists wp0 tr, created wp0 /\ run wp0 tr wp.

(** ** DatabaseBenchmarkPool *)

Record DatabaseBenchmarkPool : Type := mk_DatabaseBenchmarkPool {
  pool : WorkerPool;
  operations : gmap string Z;
  durations : gmap string (list time_Duration)
}.

Definition NewDatabaseBenchmarkPool (numCPU : Z) (parent : Context)
    (workers0 : Z) : option DatabaseBenchmarkPool :=
  match NewWorkerPool numCPU parent workers0 with
  | Some wp => Some (mk_DatabaseBenchmarkPool wp ∅ ∅)
  | None => None
  end.

(** A missing key reads as the zero value: [0] in [operations], the nil
    slice in [durations]. *)
Definition RecordOperation (operation : string) (duration : time_Duration)
    (dbp : DatabaseBenchmarkPool) : DatabaseBenchmarkPool :=
  mk_DatabaseBenchmarkPool (pool dbp)
    (<[operation := wrap64 (default 0 (operations dbp !! operation) + 1)]>
       (operations dbp))
    (<[operation := default [] (durations dbp !! operation) ++ [duration]]>
       (durations dbp)).

(** The loop [for _, d := range durations] over the accumulators
    [(total, min, max)]. *)
Definition scan_step (acc : Z * Z * Z) (d : time_Duration) : Z * Z * Z :=
  let '(total, min, max) := acc in
  (wrap64 (total + d),
   if d <? min then d else min,
   if max <? d then d else max).

Definition scan_durations (ds : list time_Duration) (acc : Z * Z * Z)
  : Z * Z * Z :=
  fold_left scan_step ds acc.

(** [(total, min, max, avg)] as GetBenchmarkStats computes them for one
    operation with at least one duration [d0 :: rest]. *)
Definition summarize (d0 : time_Duration) (rest : list time_Duration)
  : Z * Z * Z * Z :=
  let durations := d0 :: rest in
  let '(total, min, max) := scan_durations durations (0, d0, d0) in
  let avg := Z.quot total (Z.of_nat (length durations)) in
  (total, min, max, avg).

Record op_stats : Type := mk_op_stats {
  count : Z;
  avg_duration : string;
  min_duration : string;
  max_duration : string;
  total_time : string
}.

Section BenchmarkStats.

(** [time.Duration.String], the standard library's rendering of a
    duration, which the statistics store. *)
Variable Duration_String : time_Duration -> string.

Definition stats_entry (count : Z) (durations : list time_Duration)
  : option op_stats :=
  match durations with
  | [] => None (* continue *)
  | d0 :: rest =>
      let '(total, min, max, avg) := summarize d0 rest in
      Some (mk_op_stats count (Duration_String avg) (Duration_String min)
              (Duration_String max) (Duration_String total))
  end.

Definition GetBenchmarkStats (dbp : DatabaseBenchmarkPool)
  : gmap string op_stats :=
  map_imap
    (fun operation count =>
       stats_entry count (default [] (durations dbp !! operation)))
    (operations dbp).

End BenchmarkStats.

(** A sequence of RecordOperation calls, oldest first. *)
Definition record_all (calls : list (string * time_Duration))
    (dbp : DatabaseBenchmarkPool) : DatabaseBenchmarkPool :=
  fold_left (fun dbp call => RecordOperation (fst call) (snd call) dbp)
    calls dbp.

(** The durations recorded for [operation] by [calls], oldest first. *)
Definition recorded (operation : string)
    (calls : list (string * time_Duration)) : list time_Duration :=
  snd <$> filter (fun call => fst call = operation) calls.

(** The exact sum of a list of durations. *)
Definition sum_durations (ds : list time_Duration) : Z :=
  fold_right Z.add 0 ds.

(** ** Invariants of the pool *)

Fixpoint count_alive (gs : list goroutine) : Z :=
  match gs with
  | [] => 0
  | g :: gs' => (if alive g then 1 else 0) + count_alive gs'
  end.

Definition all_exited (wp : WorkerPool) : Prop :=
  forall (i : nat) g, goroutines wp !! i = Some g -> alive g = false.

Record pool_inv (wp : WorkerPool) : Prop := mk_pool_inv {
  inv_wg : wg wp = count_alive (goroutines wp);
  inv_stopped : started wp = false -> wg wp = 0;
  inv_mu :
    mu wp = true ->
    started wp = true /\ closed (jobQueue wp) = true /\
    closed (results wp) = false;
  inv_closed : closed (jobQueue wp) = true -> Err (ctx wp) <> None;
  inv_results_closed :
    closed (results wp) = true -> closed (jobQueue wp) = true;
  inv_workers : 0 < workers wp <= int64_max;
  inv_cap_jobQueue : cap (jobQueue wp) = wrap64 (workers wp * 10);
  inv_cap_results : cap (results wp) = wrap64 (workers wp * 2);
  inv_cap_pos : 0 < cap (jobQueue wp) /\ 0 < cap (results wp);
  inv_len_jobQueue : len (jobQueue wp) <= cap (jobQueue wp);
  inv_len_results : len (results wp) <= cap (results wp)
}.

(** The labels of a call of Stop. *)
Definition is_Stop (l : label) : bool :=
  match l with
  | Stop_enters_Wait | Stop_returns | Stop_panics => true
  | _ => false
  end.

(** Calls of Submit one after the other, with nothing else in between. *)
Inductive submits
  : WorkerPool -> list Job -> list (call_result (option error)) ->
    WorkerPool -> Prop :=
  | submits_nil wp : submits wp [] [] wp
  | submits_cons wp job r wp1 jobs rs wp2 :
      In (r, wp1) (Submit wp job) ->
      submits wp1 jobs rs wp2 ->
      submits wp (job :: jobs) (r :: rs) wp2.

Definition is_Start (l : label) : bool :=
  match l with
  | call_Start => true
  | _ => false
  end.

(** ** A pool of one worker

    [pool1] is what [NewWorkerPool(context.Background(), 1)] returns;
    the states after it are the ones the named calls lead to. *)
Definition background : Context := mk_Context None None.

Definition pool1 : WorkerPool :=
  mk_WorkerPool 1 (mk_chan [] 10 false) (mk_chan [] 2 false) 0 background
    false false [].

(** A job with a timeout of 5ns whose unit-of-work ignores its context and
    never returns. *)
Definition endless_job : Job := mk_Job 7 (fun _ => task_never_returns) 5.

(** After Start, Submit(endless_job), and the worker taking the job. *)
Definition pool1_busy : WorkerPool :=
  mk_WorkerPool 1 (mk_chan [] 10 false) (mk_chan [] 2 false) 1 background
    true false [Executing endless_job].

(** After Start and Stop's cancel and close, with the worker gone and Stop
    still in [wg.Wait()]. *)
Definition pool1_stopping : WorkerPool :=
  mk_WorkerPool 1 (mk_chan [] 10 true) (mk_chan [] 2 false) 0
    (mk_Context (Some context_Canceled) None) true true [Exited].

(** After Stop has returned. *)
Definition pool1_stopped : WorkerPool :=
  mk_WorkerPool 1 (mk_chan [] 10 true) (mk_chan [] 2 true) 0
    (mk_Context (Some context_Canceled) None) false false [Exited].

(** After Start and [n] calls of Submit, with no job taken yet; with ten
    jobs the job queue is at capacity. *)
Definition pool1_queued (n : nat) : WorkerPool :=
  mk_WorkerPool 1 (mk_chan (replicate n endless_job) 10 false)
    (mk_chan [] 2 false) 1 background true false [Idle].

Definition pool1_full : WorkerPool := pool1_queued 10.

(** A job whose unit-of-work fails at once with an error of its own. *)
Definition errRefused : error :=
  mk_error (named_error "net.OpError") "connection refused".

Definition failing_job : Job :=
  mk_Job 3 (fun _ => task_returns nil_value (Some errRefused) 12) 0.

(** [NewDatabaseBenchmarkPool(context.Background(), 1)]. *)
Definition bench1 : DatabaseBenchmarkPool :=
  mk_DatabaseBenchmarkPool pool1 ∅ ∅.

(** A rendering of durations to instantiate [time.Duration.String] with
    in examples: the count of nanoseconds in decimal. *)
Definition nanoseconds (d : time_Duration) : string := fmt_d d +:+ "ns".

(** ** Stats

    The map [Stats] returns, under the read lock. *)
Inductive stat_value : Type :=
  | stat_int (z : Z)
  | stat_bool (b : bool).

Definition Stats (wp : WorkerPool) : gmap string stat_value :=
  <["workers" := stat_int (workers wp)]>
    (<["jobs_queued" := stat_int (len (jobQueue wp))]>
       (<["results_ready" := stat_int (len (results wp))]>
          (<["started" := stat_bool (started wp)]> ∅))).

(** ** SubmitBenchmarkJob

    [now] is [time.Now().UnixNano()]. *)
Definition time_Second : time_Duration := 1000000000.

Definition SubmitBenchmarkJob (now : Z) (operation : string)
    (taskFunc : Context -> task_outcome) (dbp : DatabaseBenchmarkPool)
  : list (call_result (option error) * DatabaseBenchmarkPool) :=
  let job := mk_Job now taskFunc (30 * time_Second) in
  map (fun o => (fst o,
                 mk_DatabaseBenchmarkPool (snd o) (operations dbp)
                   (durations dbp)))
    (Submit (pool dbp) job).

(** ** testConcurrentOperations (cmd/test-crud), from "Process results" on

    The loop over the collected results with its accumulators
    [(successful, totalDuration)] and the pool it records into, and the
    average that follows it; the division panics on a zero divisor. *)
Definition process_result (acc : Z * time_Duration * DatabaseBenchmarkPool)
    (result : Result) : Z * time_Duration * DatabaseBenchmarkPool :=
  let '(successful, totalDuration, pool) := acc in
  match Error result with
  | None =>
      (wrap64 (successful + 1),
       wrap64 (totalDuration + Duration result),
       RecordOperation "concurrent_create" (Duration result) pool)
  | Some _ => acc
  end.

Definition process_results (results : list Result)
    (pool : DatabaseBenchmarkPool)
  : Z * time_Duration * DatabaseBenchmarkPool :=
  fold_left process_result results (0, 0, pool).

Definition avgDuration (results : list Result) (pool : DatabaseBenchmarkPool)
  : call_result (time_Duration * DatabaseBenchmarkPool) :=
  let '(successful, totalDuration, pool') := process_results results pool in
  if successful =? 0 then panics "runtime error: integer divide by zero"
  else returns (wrap64 (Z.quot totalDuration successful), pool').

(** ** Histories

    The jobs that the calls of Submit in a trace accepted, oldest first. *)
Definition accepted_job (l : label) : option Job :=
  match l with
  | call_Submit job (returns None) => Some job
  | _ => None
  end.

Definition accepted (tr : list label) : list Job := omap accepted_job tr.

(** [result] is what executeJob made of one of [jobs]. *)
Definition made_of (jobs : list Job) (result : Result) : Prop :=
  exists job wp, In job jobs /\ executeJob wp job = Some result.

(** The results a pool holds: in the result channel, or in the hands of a
    worker that is delivering. *)
Definition holds_result (wp : WorkerPool) (result : Result) : Prop :=
  In result (buf (results wp)) \/
  exists i : nat, goroutines wp !! i = Some (Delivering result).

(** The jobs a pool holds: in the job queue, or being executed. *)
Definition holds_job (wp : WorkerPool) (job : Job) : Prop :=
  In job (buf (jobQueue wp)) \/
  exists i : nat, goroutines wp !! i = Some (Executing job).

(** Every unit-of-work that a worker is executing returns. *)
Definition tasks_return (wp : WorkerPool) : Prop :=
  forall (i : nat) job c,
    goroutines wp !! i = Some (Executing job) ->
    TaskFunc job c <> task_never_returns.

(** The results without an error, as the loop of testConcurrentOperations
    selects them. *)
Definition succeeded (results : list Result) : list Result :=
  List.filter (fun r => match Error r with None => true | Some _ => false end)
    results.

(** The job IDs a pool holds, as often as it holds them: of the jobs in
    the queue, of the job or Result in the hands of each worker, and of the
    Results in the result channel. *)
Definition goroutine_id (g : goroutine) : option Z :=
  match g with
  | Executing job => Some (ID job)
  | Delivering r => Some (JobID r)
  | _ => None
  end.

Definition held_ids (wp : WorkerPool) : list Z :=
  (ID <$> buf (jobQueue wp))
  ++ omap goroutine_id (goroutines wp)
  ++ (JobID <$> buf (results wp)).

(** * Properties *)

(** ** Integers *)

Lemma wrap64_id z : is_int64 z -> wrap64 z = z.
Proof.
  unfold is_int64, int64_min, int64_max, wrap64. intros Hz.
  rewrite Z.mod_small; lia.
Qed.

Lemma wrap64_add_l a b : wrap64 (wrap64 a + b) = wrap64 (a + b).
Proof.
  unfold wrap64.
  replace ((a + 2 ^ 63) mod 2 ^ 64 - 2 ^ 63 + b + 2 ^ 63)
    with ((a + 2 ^ 63) mod 2 ^ 64 + b) by lia.
  rewrite Zplus_mod_idemp_l. do 2 f_equal. lia.
Qed.

(** ** Projections of the updated pool *)

(** Splits a hypothesis [In x l], for [l] a list of ready cases, into one
    goal per case. *)
Ltac in_cases :=
  repeat match goal with
         | H : False |- _ => destruct H
         | H : _ \/ _ |- _ => destruct H
         | H : In _ (_ ++ _) |- _ => apply in_app_or in H
         | H : In _ (match ?x with _ => _ end) |- _ =>
             destruct x eqn:?; simpl in H
         | H : In _ (_ :: _) |- _ => simpl in H
         | H : In _ [] |- _ => simpl in H
         | H : (_, _) = (_, _) |- _ => inversion H; subst; clear H
         end.

Lemma worker_cases_goroutines g wp g' wp' :
  In (g', wp') (worker_cases g wp) -> goroutines wp' = goroutines wp.
Proof.
  unfold worker_cases. intros Hin.
  destruct g; simpl in Hin; in_cases; reflexivity.
Qed.

Lemma spawn_workers_fields n wp :
  let wp' := spawn_workers n wp in
  workers wp' = workers wp /\ jobQueue wp' = jobQueue wp /\
  results wp' = results wp /\ ctx wp' = ctx wp /\
  started wp' = started wp /\ mu wp' = mu wp /\
  wg wp' = wg wp + Z.of_nat n /\
  goroutines wp' = goroutines wp ++ replicate n Idle.
Proof.
  revert wp. induction n as [|n IH]; intros wp; simpl.
  - rewrite app_nil_r. repeat split; lia.
  - destruct (IH (spawn_worker wp)) as (-> & -> & -> & -> & -> & -> & -> & ->).
    simpl. rewrite <- app_assoc. simpl. repeat split; lia.
Qed.

(** ** Start *)

Lemma Start_started wp : started wp = true -> Start wp = wp.
Proof. unfold Start. intros ->. reflexivity. Qed.

Lemma started_Start wp : started (Start wp) = true.
Proof.
  unfold Start. destruct (started wp) eqn:E; [exact E | reflexivity].
Qed.

Lemma Start_goroutines wp :
  started wp = false ->
  goroutines (Start wp)
  = goroutines wp ++ replicate (Z.to_nat (workers wp)) Idle.
Proof.
  unfold Start. intros ->. simpl.
  apply (spawn_workers_fields (Z.to_nat (workers wp)) wp).
Qed.

(** ** Errors *)

Lemma Submit_returns wp job r wp' :
  In (r, wp') (Submit wp job) ->
  r = returns None \/
  r = returns (Some errNotStarted) \/
  r = returns (Some errQueueFull) \/
  (exists e, Err (ctx wp) = Some e /\ r = returns (Some e)) \/
  r = panics "send on closed channel".
Proof.
  unfold Submit. destruct (started wp); simpl.
  - destruct (closed (jobQueue wp)); simpl.
    + destruct (Err (ctx wp)) as [e|]; simpl; intros Hin.
      * destruct Hin as [H|[H|[]]]; inversion H; subst; eauto 10.
      * destruct Hin as [H|[]]; inversion H; subst; eauto 10.
    + destruct (len (jobQueue wp) <? cap (jobQueue wp)); simpl;
        destruct (Err (ctx wp)) as [e|]; simpl; intros Hin;
        repeat (destruct Hin as [H|Hin]; [inversion H; subst; eauto 10|]);
        destruct Hin.
  - intros [H|[]]. inversion H; subst; eauto.
Qed.

(** What Submit returns does not depend on the job that is submitted. *)
Lemma Submit_returns_any_job wp job job' :
  map fst (Submit wp job) = map fst (Submit wp job').
Proof.
  unfold Submit. destruct (started wp); simpl; [|reflexivity].
  destruct (closed (jobQueue wp)); simpl; [reflexivity|].
  destruct (len (jobQueue wp) <? cap (jobQueue wp)); simpl;
    destruct (Err (ctx wp)); reflexivity.
Qed.

(** ** GetResults *)

Lemma GetResults_loop_all rounds count acc rs rest :
  length rs = rounds ->
  GetResults_loop rounds count acc (map received rs ++ rest)
  = collect_returns (acc ++ rs) None.
Proof.
  revert acc rs. induction rounds as [|n IH]; intros acc rs Hlen.
  - destruct rs; [|discriminate]. simpl. by rewrite app_nil_r.
  - destruct rs as [|r rs]; [discriminate|]. simpl.
    rewrite IH by (simpl in Hlen; congruence).
    by rewrite <- app_assoc.
Qed.

Lemma GetResults_loop_timeout rounds count acc rs rest :
  (length rs < rounds)%nat ->
  GetResults_loop rounds count acc
    (map received rs ++ timeoutCtx_Done :: rest)
  = collect_returns (acc ++ rs)
      (Some (errCollectTimeout (Z.of_nat (length (acc ++ rs))) count)).
Proof.
  revert acc rs. induction rounds as [|n IH]; intros acc rs Hlen.
  - simpl in Hlen. lia.
  - destruct rs as [|r rs]; simpl.
    + by rewrite app_nil_r.
    + rewrite IH by (simpl in Hlen; lia). by rewrite <- app_assoc.
Qed.

(** Whatever GetResults returns, its error is nil or the timeout error,
    and the results it returns are the ones it received, unchanged. *)
Lemma GetResults_loop_returns rounds count acc events rs e :
  GetResults_loop rounds count acc events = collect_returns rs e ->
  exists got,
    rs = acc ++ got /\
    map received got = take (length got) events /\
    (e = None \/ e = Some (errCollectTimeout (Z.of_nat (length rs)) count)).
Proof.
  revert acc events. induction rounds as [|n IH]; intros acc events H.
  - simpl in H. inversion H; subst. exists []. rewrite app_nil_r.
    split; [done|]. split; [done|]. by left.
  - destruct events as [|[r|] events]; simpl in H; [discriminate| |].
    + apply IH in H as (got & -> & Htake & He).
      rewrite <- app_assoc in He. simpl in He.
      exists (r :: got). rewrite <- app_assoc. simpl. split; [done|].
      split; [by rewrite Htake|done].
    + inversion H; subst. exists []. rewrite app_nil_r.
      split; [done|]. split; [done|]. by right.
Qed.

(** ** The invariants hold in every reachable state *)

Lemma count_alive_nonneg gs : 0 <= count_alive gs.
Proof. induction gs as [|g gs IH]; simpl; [lia|]. destruct (alive g); lia. Qed.

Lemma count_alive_app gs1 gs2 :
  count_alive (gs1 ++ gs2) = count_alive gs1 + count_alive gs2.
Proof. induction gs1 as [|g gs1 IH]; simpl; [done|]. rewrite IH. lia. Qed.

Lemma count_alive_replicate_Idle n :
  count_alive (replicate n Idle) = Z.of_nat n.
Proof. induction n as [|n IH]; simpl replicate; simpl count_alive; lia. Qed.

Lemma count_alive_insert gs (i : nat) g g' :
  gs !! i = Some g ->
  count_alive (<[i:=g']> gs)
  = count_alive gs - (if alive g then 1 else 0) + (if alive g' then 1 else 0).
Proof.
  revert i. induction gs as [|g0 gs IH]; intros i Hi; [done|].
  destruct i as [|i]; simpl in *.
  - inversion Hi; subst. lia.
  - rewrite (IH i Hi). lia.
Qed.

Lemma count_alive_0 gs (i : nat) g :
  count_alive gs = 0 -> gs !! i = Some g -> alive g = false.
Proof.
  revert i. induction gs as [|g0 gs IH]; intros i H0 Hi; [done|].
  simpl in H0. pose proof (count_alive_nonneg gs).
  destruct i as [|i]; simpl in Hi.
  - inversion Hi; subst. destruct (alive g); [lia|done].
  - apply (IH i); [destruct (alive g0); lia|done].
Qed.

Lemma worker_cases_alive g wp : alive g = false -> worker_cases g wp = [].
Proof. destruct g; simpl; intros; done. Qed.

Lemma wrap64_scaled_pos w k :
  0 < w <= int64_max -> k = 10 \/ k = 2 ->
  0 <= wrap64 (w * k) -> 0 < wrap64 (w * k).
Proof.
  unfold int64_max, wrap64. intros Hw Hk Hge.
  assert (Hne : (w * k + 2 ^ 63) mod 2 ^ 64 - 2 ^ 63 <> 0);
    [|lia].
  intros Heq.
  pose proof (Z.div_mod (w * k + 2 ^ 63) (2 ^ 64) ltac:(lia)) as Hdm.
  set (q := (w * k + 2 ^ 63) / 2 ^ 64) in *.
  assert (0 <= q <= 5).
  { split.
    - apply Z.div_pos; lia.
    - assert (q < 6); [|lia].
      apply Z.div_lt_upper_bound; destruct Hk; subst k; lia. }
  destruct Hk; subst k; lia.
Qed.

Lemma created_inv wp : created wp -> pool_inv wp.
Proof.
  intros (numCPU & parent & w0 & Hcpu & Hcpu64 & Hw64 & Hnew).
  unfold NewWorkerPool, make_chan in Hnew.
  set (w := if w0 <=? 0 then numCPU else w0) in *.
  assert (Hw : 0 < w <= int64_max).
  { unfold is_int64 in *. subst w. destruct (Z.leb_spec w0 0); lia. }
  destruct (Z.ltb_spec (wrap64 (w * 10)) 0); [discriminate|].
  destruct (Z.ltb_spec (wrap64 (w * 2)) 0); [discriminate|].
  inversion Hnew; subst wp; clear Hnew.
  constructor; simpl; try done; try lia.
  split; apply wrap64_scaled_pos; auto.
Qed.

Lemma Start_inv wp : pool_inv wp -> pool_inv (Start wp).
Proof.
  intros Hinv. unfold Start. destruct (started wp) eqn:Hs; [exact Hinv|].
  destruct Hinv as [Hwg Hst Hmu Hcl Hrc Hw Hcj Hcr Hpos Hlj Hlr].
  pose proof (spawn_workers_fields (Z.to_nat (workers wp)) wp) as Hf.
  simpl in Hf.
  destruct Hf as (Hf1 & Hf2 & Hf3 & Hf4 & Hf5 & Hf6 & Hf7 & Hf8).
  constructor; simpl; rewrite ?Hf1, ?Hf2, ?Hf3, ?Hf4, ?Hf6, ?Hf7, ?Hf8;
    try done.
  - rewrite count_alive_app, count_alive_replicate_Idle. lia.
  - intros Hm. destruct (Hmu Hm) as [? _]. congruence.
Qed.

Lemma Submit_inv wp job r wp' :
  pool_inv wp -> In (r, wp') (Submit wp job) -> pool_inv wp'.
Proof.
  intros Hinv. unfold Submit.
  destruct (started wp) eqn:Hs; simpl;
    [|intros [H|[]]; by inversion H; subst].
  intros Hin.
  assert (Hcases :
    wp' = wp \/
    (len (jobQueue wp) < cap (jobQueue wp) /\
     wp' = with_jobQueue (chan_push job (jobQueue wp)) wp)).
  { destruct (closed (jobQueue wp)); simpl in Hin.
    - destruct (Err (ctx wp)); simpl in Hin; in_cases; auto.
    - destruct (Z.ltb_spec (len (jobQueue wp)) (cap (jobQueue wp)));
        destruct (Err (ctx wp)); simpl in Hin; in_cases; auto. }
  destruct Hcases as [->|[Hlt ->]]; [done|].
  destruct Hinv as [Hwg Hst Hmu Hcl Hrc Hw Hcj Hcr Hpos Hlj Hlr].
  constructor; simpl; try done.
  unfold len in *. simpl. rewrite length_app. simpl. lia.
Qed.

Lemma Stop_begin_inv wp :
  pool_inv wp -> mu wp = false ->
  match Stop_begin wp with
  | stop_returned wp' | stop_panicked _ wp' | stop_waiting wp' => pool_inv wp'
  end.
Proof.
  intros Hinv Hm.
  unfold Stop_begin. destruct (started wp) eqn:Hs; simpl; [|exact Hinv].
  destruct Hinv as [Hwg Hst Hmu Hcl Hrc Hw Hcj Hcr Hpos Hlj Hlr].
  assert (Hdone : Err (ctx_cancel (ctx wp)) <> None).
  { unfold ctx_cancel. destruct (Err (ctx wp)) eqn:E; simpl; congruence. }
  destruct (closed (jobQueue wp)) eqn:Hc; constructor; simpl; try done.
  - intros Hm'. congruence.
  - intros _. split; [done|]. split; [done|].
    destruct (closed (results wp)) eqn:E; [|done].
    specialize (Hrc eq_refl). congruence.
Qed.

Lemma Stop_end_inv wp :
  pool_inv wp -> mu wp = true ->
  match Stop_end wp with
  | Some (stop_returned wp') | Some (stop_panicked _ wp')
  | Some (stop_waiting wp') => pool_inv wp'
  | None => True
  end.
Proof.
  intros [Hwg Hst Hmu Hcl Hrc Hw Hcj Hcr Hpos Hlj Hlr] Hm.
  destruct (Hmu Hm) as (Hs & Hcj' & Hcr').
  unfold Stop_end. destruct (Z.eqb_spec (wg wp) 0) as [H0|]; [|done].
  rewrite Hcr'. constructor; simpl; try done.
Qed.

Lemma GetResult_inv wp r wp' :
  pool_inv wp -> In (r, wp') (GetResult wp) -> pool_inv wp'.
Proof.
  intros Hinv Hin. unfold GetResult in Hin.
  assert (Hcases : wp' = wp \/
                   wp' = with_results (chan_pop (results wp)) wp).
  { apply in_app_or in Hin. destruct Hin as [Hin|Hin].
    - destruct (buf (results wp)); [destruct (closed (results wp))|];
        simpl in Hin; in_cases; auto.
    - destruct (Err (ctx wp)); simpl in Hin; in_cases; auto. }
  destruct Hcases as [->| ->]; [done|].
  destruct Hinv as [Hwg Hst Hmu Hcl Hrc Hw Hcj Hcr Hpos Hlj Hlr].
  constructor; simpl; try done.
  unfold len in *. simpl. destruct (buf (results wp)); simpl in *; lia.
Qed.

Lemma parent_done_inv wp e :
  pool_inv wp -> pool_inv (with_ctx (ctx_done e (ctx wp)) wp).
Proof.
  intros [Hwg Hst Hmu Hcl Hrc Hw Hcj Hcr Hpos Hlj Hlr].
  constructor; simpl; done.
Qed.

(** The moves of a worker goroutine. *)
Lemma worker_cases_spec g wp g' wp' :
  In (g', wp') (worker_cases g wp) ->
  (exists job, g = Idle /\ head (buf (jobQueue wp)) = Some job /\
     g' = Executing job /\ wp' = with_jobQueue (chan_pop (jobQueue wp)) wp)
  \/ (alive g = true /\ alive g' = false /\ wp' = wg_Done wp)
  \/ (exists job r, g = Executing job /\ executeJob wp job = Some r /\
        g' = Delivering r /\ wp' = wp)
  \/ (exists r, g = Delivering r /\ closed (results wp) = false /\
        len (results wp) < cap (results wp) /\ g' = Idle /\
        wp' = with_results (chan_push r (results wp)) wp).
Proof.
  intros Hin. destruct g; simpl in Hin.
  - apply in_app_or in Hin. destruct Hin as [Hin|Hin].
    + destruct (buf (jobQueue wp)) as [|job rest] eqn:Hb.
      * destruct (closed (jobQueue wp)); simpl in Hin; in_cases.
        right; left. done.
      * simpl in Hin. in_cases. left. exists job. done.
    + destruct (Err (ctx wp)); simpl in Hin; in_cases. right; left. done.
  - destruct (executeJob wp job) as [r|] eqn:He; simpl in Hin; in_cases.
    right; right; left. exists job, r. done.
  - apply in_app_or in Hin. destruct Hin as [Hin|Hin].
    + destruct (closed (results wp)) eqn:Hc; simpl in Hin.
      * in_cases. right; left. done.
      * destruct (Z.ltb_spec (len (results wp)) (cap (results wp)));
          simpl in Hin; in_cases.
        right; right; right. exists r. done.
    + destruct (Err (ctx wp)); simpl in Hin; in_cases. right; left. done.
  - destruct Hin.
  - destruct Hin.
Qed.

Lemma worker_inv wp (i : nat) g g' wp' :
  pool_inv wp ->
  goroutines wp !! i = Some g ->
  In (g', wp') (worker_cases g wp) ->
  pool_inv (with_goroutines (<[i:=g']> (goroutines wp')) wp').
Proof.
  intros Hinv Hi Hin.
  assert (Halive : alive g = true).
  { destruct (alive g) eqn:E; [done|].
    rewrite (worker_cases_alive g wp E) in Hin. destruct Hin. }
  assert (Hstarted : started wp = true).
  { destruct (started wp) eqn:E; [done|].
    pose proof (inv_stopped wp Hinv E) as H0.
    rewrite (inv_wg wp Hinv) in H0.
    rewrite (count_alive_0 _ i g H0 Hi) in Halive. done. }
  destruct Hinv as [Hwg Hst Hmu Hcl Hrc Hw Hcj Hcr Hpos Hlj Hlr].
  apply worker_cases_spec in Hin.
  destruct Hin as [(job & -> & Hh & -> & ->)
                  |[(_ & Hdead & ->)
                  |[(job & r & -> & He & -> & ->)
                  |(r & -> & Hc & Hlt & -> & ->)]]];
    constructor; simpl; try done; try congruence;
    try (rewrite (count_alive_insert _ _ _ _ Hi); simpl;
         rewrite ?Halive, ?Hdead; lia).
  - unfold len in *. simpl. destruct (buf (jobQueue wp)); simpl in *; lia.
  - unfold len in *. simpl. rewrite length_app. simpl. lia.
Qed.

Lemma step_inv wp l wp' : pool_inv wp -> step wp l wp' -> pool_inv wp'.
Proof.
  intros Hinv Hstep. destruct Hstep.
  - by apply Start_inv.
  - by eapply Submit_inv.
  - pose proof (Stop_begin_inv wp Hinv H) as Hb. by rewrite H0 in Hb.
  - pose proof (Stop_begin_inv wp Hinv H) as Hb. by rewrite H0 in Hb.
  - pose proof (Stop_begin_inv wp Hinv H) as Hb. by rewrite H0 in Hb.
  - pose proof (Stop_end_inv wp Hinv H) as Hb. by rewrite H0 in Hb.
  - pose proof (Stop_end_inv wp Hinv H) as Hb. by rewrite H0 in Hb.
  - by eapply worker_inv.
  - by eapply GetResult_inv.
  - by apply parent_done_inv.
Qed.

Lemma run_inv wp tr wp' : pool_inv wp -> run wp tr wp' -> pool_inv wp'.
Proof. intros Hinv Hrun. induction Hrun; eauto using step_inv. Qed.

Lemma reachable_inv wp : reachable wp -> pool_inv wp.
Proof.
  intros (wp0 & tr & Hc & Hrun). eauto using run_inv, created_inv.
Qed.

Lemma reachable_step wp l wp' : reachable wp -> step wp l wp' -> reachable wp'.
Proof.
  intros (wp0 & tr & Hc & Hrun) Hstep.
  exists wp0, (tr ++ [l]). eauto using run_snoc.
Qed.

Lemma run_app wp tr1 wp1 tr2 wp2 :
  run wp tr1 wp1 -> run wp1 tr2 wp2 -> run wp (tr1 ++ tr2) wp2.
Proof.
  intros H1 H2. induction H2.
  - by rewrite app_nil_r.
  - rewrite app_assoc. eauto using run_snoc.
Qed.

Lemma run_cons wp l wp1 tr wp2 :
  step wp l wp1 -> run wp1 tr wp2 -> run wp (l :: tr) wp2.
Proof.
  intros Hstep Hrun.
  apply (run_app wp [l] wp1 tr wp2); [|done].
  apply (run_snoc wp [] wp l wp1); [constructor|done].
Qed.

(** ** The states of the pool of one worker are reachable *)

Lemma step_worker_to wp (i : nat) g g' wp' wp'' :
  goroutines wp !! i = Some g ->
  In (g', wp') (worker_cases g wp) ->
  wp'' = with_goroutines (<[i:=g']> (goroutines wp')) wp' ->
  step wp (worker_runs i) wp''.
Proof. intros Hi Hin ->. by eapply step_worker. Qed.

Lemma pool1_created : created pool1.
Proof.
  exists 4, background, 1. unfold is_int64, int64_min, int64_max.
  repeat split; try lia. all: vm_compute; congruence.
Qed.

Lemma pool1_busy_run :
  run pool1
    [call_Start; call_Submit endless_job (returns None); worker_runs 0]
    pool1_busy.
Proof.
  eapply run_cons; [apply step_Start; reflexivity|].
  eapply run_cons; [apply step_Submit; [reflexivity|left; reflexivity]|].
  eapply run_cons; [|apply run_nil].
  eapply (step_worker_to _ 0 Idle (Executing endless_job));
    [reflexivity|left; reflexivity|reflexivity].
Qed.

Lemma pool1_stopping_run :
  run pool1 [call_Start; Stop_enters_Wait; worker_runs 0] pool1_stopping.
Proof.
  eapply run_cons; [apply step_Start; reflexivity|].
  eapply run_cons; [apply step_Stop_begin; reflexivity|].
  eapply run_cons; [|apply run_nil].
  eapply (step_worker_to _ 0 Idle Exited);
    [reflexivity|left; reflexivity|reflexivity].
Qed.

Lemma pool1_stopped_step : step pool1_stopping Stop_returns pool1_stopped.
Proof. apply step_Stop_end; reflexivity. Qed.

Lemma pool1_busy_reachable : reachable pool1_busy.
Proof. exists pool1. eexists. split; [apply pool1_created|apply pool1_busy_run]. Qed.

Lemma pool1_stopping_reachable : reachable pool1_stopping.
Proof.
  exists pool1. eexists. split; [apply pool1_created|apply pool1_stopping_run].
Qed.

(** ** What a step leaves alone *)

Lemma Submit_pool wp job r wp' :
  In (r, wp') (Submit wp job) ->
  wp' = wp \/ wp' = with_jobQueue (chan_push job (jobQueue wp)) wp.
Proof.
  unfold Submit. destruct (started wp); simpl; [|intros; in_cases; auto].
  destruct (closed (jobQueue wp)); simpl.
  - destruct (Err (ctx wp)); simpl; intros; in_cases; auto.
  - destruct (len (jobQueue wp) <? cap (jobQueue wp));
      destruct (Err (ctx wp)); simpl; intros; in_cases; auto.
Qed.

Lemma GetResult_pool wp r wp' :
  In (r, wp') (GetResult wp) ->
  wp' = wp \/ wp' = with_results (chan_pop (results wp)) wp.
Proof.
  unfold GetResult. intros Hin. apply in_app_or in Hin.
  destruct Hin as [Hin|Hin].
  - destruct (buf (results wp)); [destruct (closed (results wp))|];
      simpl in Hin; in_cases; auto.
  - destruct (Err (ctx wp)); simpl in Hin; in_cases; auto.
Qed.

Lemma worker_cases_fields g wp g' wp' :
  In (g', wp') (worker_cases g wp) ->
  started wp' = started wp /\ mu wp' = mu wp /\ workers wp' = workers wp /\
  ctx wp' = ctx wp /\ closed (jobQueue wp') = closed (jobQueue wp) /\
  closed (results wp') = closed (results wp).
Proof.
  intros Hin. apply worker_cases_spec in Hin.
  destruct Hin as [(job & -> & Hh & -> & ->)
                  |[(_ & Hdead & ->)
                  |[(job & r & -> & He & -> & ->)
                  |(r & -> & Hc & Hlt & -> & ->)]]]; done.
Qed.

(** A step that belongs neither to Start nor to Stop. *)
Lemma step_other wp l wp' :
  step wp l wp' -> is_Start l = false -> is_Stop l = false ->
  started wp' = started wp /\ mu wp' = mu wp /\ workers wp' = workers wp /\
  length (goroutines wp') = length (goroutines wp).
Proof.
  intros Hstep HS HT. destruct Hstep; try discriminate.
  - destruct (Submit_pool _ _ _ _ H0) as [->| ->]; done.
  - destruct (worker_cases_fields _ _ _ _ H0) as (Hs & Hm & Hw & _).
    simpl. rewrite Hs, Hm, Hw, length_insert.
    by rewrite (worker_cases_goroutines _ _ _ _ H0).
  - destruct (GetResult_pool _ _ _ H) as [->| ->]; done.
  - done.
Qed.

Lemma Start_fields wp :
  workers (Start wp) = workers wp /\ mu (Start wp) = mu wp /\
  jobQueue (Start wp) = jobQueue wp /\ results (Start wp) = results wp /\
  ctx (Start wp) = ctx wp.
Proof.
  unfold Start. destruct (started wp); [done|]. simpl.
  destruct (spawn_workers_fields (Z.to_nat (workers wp)) wp)
    as (-> & -> & -> & -> & _ & -> & _). done.
Qed.

(** ** Claims *)

(** C7.  Start is idempotent: on a started pool it changes nothing, and
    over any sequence of calls and worker moves that holds no call of
    Stop, the goroutines spawned in total are none before the first Start
    and exactly [workers] from then on. *)
Theorem Start_idempotent wp0 tr wp :
  created wp0 -> run wp0 tr wp ->
  forallb (fun l => negb (is_Stop l)) tr = true ->
  Start (Start wp) = Start wp /\
  (started wp = true -> Start wp = wp) /\
  started wp = existsb is_Start tr /\
  Z.of_nat (length (goroutines wp))
  = (if existsb is_Start tr then workers wp0 else 0).
Proof.
  intros Hc Hrun Hno.
  split; [apply Start_started, started_Start|].
  split; [apply Start_started|].
  assert (Hw0 : 0 < workers wp0) by apply (inv_workers _ (created_inv _ Hc)).
  assert (Hgs0 : goroutines wp0 = [] /\ started wp0 = false /\ mu wp0 = false).
  { destruct Hc as (n & p & w & _ & _ & _ & Hnew).
    unfold NewWorkerPool in Hnew.
    destruct (make_chan _); [|discriminate].
    destruct (make_chan _); [|discriminate].
    by inversion Hnew. }
  enough (H : mu wp = false /\ workers wp = workers wp0 /\
              started wp = existsb is_Start tr /\
              Z.of_nat (length (goroutines wp))
              = (if existsb is_Start tr then workers wp0 else 0))
    by tauto.
  induction Hrun as [wp|wp tr wp' l wp'' Hrun IH Hstep].
  - destruct Hgs0 as (-> & -> & ->). done.
  - rewrite forallb_app in Hno. apply andb_true_iff in Hno as [Hno Hl].
    simpl in Hl. rewrite andb_true_r in Hl. apply negb_true_iff in Hl.
    destruct (IH Hc Hno Hw0 Hgs0) as (Hmu & Hw & Hs & Hlen).
    rewrite existsb_app. simpl. rewrite orb_false_r.
    destruct (is_Start l) eqn:HS.
    + destruct l; try discriminate. inversion Hstep; subst.
      rewrite orb_true_r.
      destruct (Start_fields wp') as (-> & -> & _).
      rewrite started_Start. repeat split; try done.
      destruct (started wp') eqn:E.
      * rewrite Start_started by done. by rewrite <- Hs in Hlen.
      * rewrite Start_goroutines by done.
        rewrite <- Hs in Hlen. rewrite length_app, length_replicate. lia.
    + destruct (step_other _ _ _ Hstep HS Hl) as (-> & -> & -> & ->).
      by rewrite orb_false_r.
Qed.

Lemma Start_idempotent_witness :
  Start (Start (Start pool1)) = Start (Start pool1) /\
  (started (Start pool1) = true -> Start (Start pool1) = Start pool1) /\
  started (Start pool1) = true /\
  Z.of_nat (length (goroutines (Start pool1))) = 1.
Proof.
  apply (Start_idempotent pool1 [call_Start; call_Start] (Start pool1)).
  - apply pool1_created.
  - eapply run_cons; [apply step_Start; reflexivity|].
    eapply run_cons; [apply step_Start; reflexivity|apply run_nil].
  - reflexivity.
Defined.

(** *** Stop *)

Lemma Stop_returns_stopped wp wp' :
  step wp Stop_returns wp' -> started wp' = false /\ mu wp' = false.
Proof.
  intros Hstep. inversion Hstep; subst.
  - unfold Stop_begin in H0. destruct (started wp) eqn:E; simpl in H0.
    + destruct (closed (jobQueue wp)); discriminate.
    + by inversion H0; subst.
  - unfold Stop_end in H0. destruct (wg wp =? 0); [|discriminate].
    destruct (closed (results wp)); inversion H0; subst. done.
Qed.

(** Stop returning from a started pool is Stop returning from
    [wg.Wait()]. *)
Lemma Stop_returns_started wp wp' :
  step wp Stop_returns wp' -> started wp = true ->
  mu wp = true /\ wg wp = 0 /\ closed (results wp) = false /\
  wp' = with_mu false
          (with_started false (with_results (chan_close (results wp)) wp)).
Proof.
  intros Hstep Hs. inversion Hstep; subst.
  - unfold Stop_begin in H0. rewrite Hs in H0. simpl in H0.
    destruct (closed (jobQueue wp)); discriminate.
  - unfold Stop_end in H0.
    destruct (Z.eqb_spec (wg wp) 0); [|discriminate].
    destruct (closed (results wp)); inversion H0; subst. done.
Qed.

Lemma step_stopped wp l wp' :
  started wp = false -> mu wp = false -> step wp l wp' ->
  is_Start l = false ->
  started wp' = false /\ mu wp' = false.
Proof.
  intros Hs Hm Hstep HS.
  destruct (is_Stop l) eqn:HT.
  - inversion Hstep; subst; try discriminate; try congruence.
    all: unfold Stop_begin in *; rewrite Hs in *; simpl in *.
    all: try discriminate.
    match goal with H : stop_returned _ = stop_returned _ |- _ =>
      inversion H; subst end. done.
  - destruct (step_other _ _ _ Hstep HS HT) as (-> & -> & _). done.
Qed.

(** C2, as amended.  Once Stop has returned, every later Submit fails with
    the not-started error, for as long as Start is not called again. *)
Theorem Submit_after_Stop wp wp1 tr wp2 job :
  step wp Stop_returns wp1 -> run wp1 tr wp2 ->
  existsb is_Start tr = false ->
  Submit wp2 job = [(returns (Some errNotStarted), wp2)].
Proof.
  intros Hstop Hrun Hno.
  apply Stop_returns_stopped in Hstop.
  assert (H : started wp2 = false /\ mu wp2 = false).
  { induction Hrun as [wp1|wp1 tr wp2 l wp3 Hrun IH Hstep]; [done|].
    rewrite existsb_app in Hno. apply orb_false_iff in Hno as [Hno Hl].
    simpl in Hl. rewrite orb_false_r in Hl.
    destruct (IH Hstop Hno) as [Hs Hm]. eauto using step_stopped. }
  unfold Submit. destruct H as [-> _]. reflexivity.
Qed.

Lemma Submit_after_Stop_witness :
  Submit pool1_stopped endless_job
  = [(returns (Some errNotStarted), pool1_stopped)].
Proof.
  apply (Submit_after_Stop pool1_stopping pool1_stopped [] pool1_stopped).
  - apply pool1_stopped_step.
  - apply run_nil.
  - reflexivity.
Defined.

(** C2, as stated, fails: Start, Stop, then Submit on a pool of one
    worker.  Stop has returned, and Submit can only fail with the
    not-started error, which is not the cancellation error. *)
Lemma Submit_after_Stop_not_Canceled :
  run pool1 [call_Start; Stop_enters_Wait; worker_runs 0; Stop_returns]
    pool1_stopped /\
  Submit pool1_stopped endless_job
  = [(returns (Some errNotStarted), pool1_stopped)] /\
  ~ In (returns (Some context_Canceled))
       (map fst (Submit pool1_stopped endless_job)).
Proof.
  split; [|split].
  - apply (run_snoc pool1 [call_Start; Stop_enters_Wait; worker_runs 0]
             pool1_stopping Stop_returns pool1_stopped);
      [apply pool1_stopping_run|apply pool1_stopped_step].
  - reflexivity.
  - simpl. intros [H|[]]. discriminate H.
Qed.

(** C4, as amended.  When Stop returns on a pool that was started, every
    worker goroutine has exited before the result channel is closed, and
    the job queue and the result channel are both closed; while a worker
    is alive, Stop stays in [wg.Wait()]. *)
Theorem Stop_joins_workers wp :
  reachable wp -> started wp = true ->
  (forall wp', step wp Stop_returns wp' ->
     all_exited wp /\ closed (results wp) = false /\
     goroutines wp' = goroutines wp /\
     closed (jobQueue wp') = true /\ closed (results wp') = true) /\
  (mu wp = true -> ~ all_exited wp -> Stop_end wp = None).
Proof.
  intros Hreach Hs. pose proof (reachable_inv _ Hreach) as Hinv. split.
  - intros wp' Hstep.
    destruct (Stop_returns_started _ _ Hstep Hs) as (Hm & H0 & Hc & ->).
    destruct (inv_mu _ Hinv Hm) as (_ & Hcj & _).
    rewrite (inv_wg _ Hinv) in H0.
    repeat split; try done.
    intros i g Hi. eauto using count_alive_0.
  - intros Hm Hnot. unfold Stop_end.
    destruct (Z.eqb_spec (wg wp) 0) as [H0|]; [|done].
    rewrite (inv_wg _ Hinv) in H0. destruct Hnot.
    intros i g Hi. eauto using count_alive_0.
Qed.

Lemma Stop_joins_workers_witness :
  (forall wp', step pool1_stopping Stop_returns wp' ->
     all_exited pool1_stopping /\ closed (results pool1_stopping) = false /\
     goroutines wp' = goroutines pool1_stopping /\
     closed (jobQueue wp') = true /\ closed (results wp') = true) /\
  (mu pool1_stopping = true -> ~ all_exited pool1_stopping ->
   Stop_end pool1_stopping = None).
Proof.
  apply (Stop_joins_workers pool1_stopping).
  - apply pool1_stopping_reachable.
  - reflexivity.
Defined.

(** C4, as stated, fails: Stop on a pool that was never started returns at
    once and leaves the job queue open. *)
Lemma Stop_unstarted_leaves_queue_open :
  created pool1 /\ step pool1 Stop_returns pool1 /\
  closed (jobQueue pool1) = false.
Proof.
  split; [apply pool1_created|]. split; [|reflexivity].
  apply step_Stop_at_once; reflexivity.
Qed.

(** C9.  Stop is not terminal.  When Stop has returned on a started pool,
    the started flag is false again, so Start is accepted and spawns
    [workers] new goroutines although the job queue is closed; in the pool
    so restarted, the send case of Submit's select is ready next to the
    cancelled-context case, and taking it panics. *)
Theorem Stop_then_Start_Submit_panics wp wp1 job :
  reachable wp -> started wp = true -> step wp Stop_returns wp1 ->
  started wp1 = false /\
  step wp1 call_Start (Start wp1) /\
  started (Start wp1) = true /\
  goroutines (Start wp1)
  = goroutines wp1 ++ replicate (Z.to_nat (workers wp1)) Idle /\
  0 < workers wp1 /\
  closed (jobQueue (Start wp1)) = true /\
  exists e,
    Err (ctx (Start wp1)) = Some e /\
    Submit (Start wp1) job
    = [(panics "send on closed channel", Start wp1);
       (returns (Some e), Start wp1)].
Proof.
  intros Hreach Hs Hstep.
  pose proof (reachable_inv _ (reachable_step _ _ _ Hreach Hstep)) as Hinv1.
  pose proof (reachable_inv _ Hreach) as Hinv.
  destruct (Stop_returns_stopped _ _ Hstep) as [Hs1 Hm1].
  destruct (Stop_returns_started _ _ Hstep Hs) as (Hm & H0 & Hc & Heq).
  destruct (inv_mu _ Hinv Hm) as (_ & Hcj & _).
  assert (Hcj1 : closed (jobQueue wp1) = true) by (by subst wp1).
  destruct (Start_fields wp1) as (HW & HM & HJ & HR & HC).
  split; [done|]. split; [by apply step_Start|].
  split; [apply started_Start|]. split; [by apply Start_goroutines|].
  split; [apply (inv_workers _ Hinv1)|]. split; [by rewrite HJ|].
  pose proof (inv_closed _ Hinv1 Hcj1) as Hdone.
  destruct (Err (ctx wp1)) as [e|] eqn:He; [|done].
  exists e. rewrite HC. split; [done|].
  unfold Submit. rewrite started_Start, HJ, HC, Hcj1, He. reflexivity.
Qed.

Lemma Stop_then_Start_Submit_panics_witness :
  Submit (Start pool1_stopped) endless_job
  = [(panics "send on closed channel", Start pool1_stopped);
     (returns (Some context_Canceled), Start pool1_stopped)].
Proof.
  destruct (Stop_then_Start_Submit_panics pool1_stopping pool1_stopped
              endless_job pool1_stopping_reachable eq_refl
              pool1_stopped_step)
    as (_ & _ & _ & _ & _ & _ & e & He & HS).
  simpl in He. inversion He; subst e. exact HS.
Defined.

(** *** Submit *)

Lemma Submit_nonempty wp job : exists r wp', In (r, wp') (Submit wp job).
Proof.
  unfold Submit. destruct (started wp); simpl; [|eauto].
  destruct (closed (jobQueue wp)); simpl; [eauto|].
  destruct (len (jobQueue wp) <? cap (jobQueue wp)); simpl; [eauto|].
  destruct (Err (ctx wp)); simpl; eauto.
Qed.

Lemma submits_exist jobs wp : exists rs wp', submits wp jobs rs wp'.
Proof.
  revert wp. induction jobs as [|job jobs IH]; intros wp.
  - eauto using submits_nil.
  - destruct (Submit_nonempty wp job) as (r & wp1 & Hin).
    destruct (IH wp1) as (rs & wp2 & Hsub). eauto using submits_cons.
Qed.

Lemma Submit_open wp job :
  started wp = true -> Err (ctx wp) = None ->
  closed (jobQueue wp) = false ->
  Submit wp job
  = if len (jobQueue wp) <? cap (jobQueue wp)
    then [(returns None, with_jobQueue (chan_push job (jobQueue wp)) wp)]
    else [(returns (Some errQueueFull), wp)].
Proof.
  intros Hs He Hc. unfold Submit. rewrite Hs, He, Hc. simpl.
  by destruct (len (jobQueue wp) <? cap (jobQueue wp)).
Qed.

Lemma submits_open jobs wp rs wp' :
  started wp = true -> Err (ctx wp) = None ->
  closed (jobQueue wp) = false ->
  len (jobQueue wp) <= cap (jobQueue wp) ->
  submits wp jobs rs wp' ->
  let free := Z.to_nat (cap (jobQueue wp) - len (jobQueue wp)) in
  rs = replicate (free `min` length jobs) (returns None)
       ++ replicate (length jobs - free) (returns (Some errQueueFull)).
Proof.
  revert wp rs. induction jobs as [|job jobs IH]; intros wp rs Hs He Hc Hle Hsub.
  - inversion Hsub; subst. simpl. by rewrite Nat.min_0_r.
  - inversion Hsub as [|? ? r wp1 ? rs' ? Hin Hsub']; subst.
    rewrite (Submit_open wp job Hs He Hc) in Hin.
    destruct (Z.ltb_spec (len (jobQueue wp)) (cap (jobQueue wp))) as [Hlt|Hge];
      simpl in Hin; destruct Hin as [Hin|[]]; inversion Hin; subst; clear Hin.
    + assert (Hlen : len (chan_push job (jobQueue wp)) = len (jobQueue wp) + 1).
      { unfold len. simpl. rewrite length_app. simpl. lia. }
      apply IH in Hsub'; simpl; try done; [|lia].
      simpl in Hsub'. rewrite Hlen in Hsub'. rewrite Hsub'. simpl.
      replace (Z.to_nat (cap (jobQueue wp) - len (jobQueue wp)))
        with (S (Z.to_nat (cap (jobQueue wp) - (len (jobQueue wp) + 1))))
        by lia.
      reflexivity.
    + apply IH in Hsub'; try done. rewrite Hsub'. simpl.
      replace (Z.to_nat (cap (jobQueue wp1) - len (jobQueue wp1)))
        with 0%nat by lia.
      simpl. by rewrite Nat.sub_0_r.
Qed.

(** C6.  On a pool that is started and not cancelled Submit does not
    block; with the job queue at capacity it returns the queue-full error
    and leaves the pool as it is; and of any number of jobs submitted one
    after the other with none taken from the queue, those that fit in the
    free space are accepted and every one beyond fails with the queue-full
    error. *)
Theorem Submit_QueueFull wp :
  reachable wp -> started wp = true -> Err (ctx wp) = None ->
  mu wp = false /\
  (forall job,
     len (jobQueue wp) = cap (jobQueue wp) ->
     Submit wp job = [(returns (Some errQueueFull), wp)]) /\
  (forall jobs, exists rs wp', submits wp jobs rs wp') /\
  (forall jobs rs wp',
     submits wp jobs rs wp' ->
     let free := Z.to_nat (cap (jobQueue wp) - len (jobQueue wp)) in
     rs = replicate (free `min` length jobs) (returns None)
          ++ replicate (length jobs - free) (returns (Some errQueueFull))).
Proof.
  intros Hreach Hs He. pose proof (reachable_inv _ Hreach) as Hinv.
  assert (Hc : closed (jobQueue wp) = false).
  { destruct (closed (jobQueue wp)) eqn:E; [|done].
    by destruct (inv_closed _ Hinv E). }
  assert (Hm : mu wp = false).
  { destruct (mu wp) eqn:E; [|done].
    destruct (inv_mu _ Hinv E) as (_ & Hc' & _). congruence. }
  split; [done|]. split; [|split].
  - intros job Hfull. rewrite (Submit_open wp job Hs He Hc).
    by rewrite Hfull, Z.ltb_irrefl.
  - intros jobs. apply submits_exist.
  - intros jobs rs wp' Hsub.
    apply (submits_open jobs wp rs wp' Hs He Hc (inv_len_jobQueue _ Hinv) Hsub).
Qed.

Lemma pool1_queued_step n :
  (n < 10)%nat ->
  step (pool1_queued n) (call_Submit endless_job (returns None))
    (pool1_queued (S n)).
Proof.
  intros Hn. apply step_Submit; [reflexivity|].
  rewrite Submit_open by reflexivity.
  unfold len. simpl. rewrite length_replicate.
  destruct (Z.ltb_spec (Z.of_nat n) 10); [|lia].
  left. unfold pool1_queued, with_jobQueue, chan_push. simpl.
  by rewrite <- replicate_S_end.
Qed.

Lemma pool1_queued_run n :
  (n <= 10)%nat ->
  run pool1
    (call_Start :: replicate n (call_Submit endless_job (returns None)))
    (pool1_queued n).
Proof.
  induction n as [|n IH]; intros Hn.
  - eapply run_cons; [apply step_Start; reflexivity|apply run_nil].
  - rewrite replicate_S_end, app_comm_cons.
    eapply run_snoc; [apply IH; lia|apply pool1_queued_step; lia].
Qed.

Lemma pool1_full_reachable : reachable pool1_full.
Proof.
  exists pool1,
    (call_Start :: replicate 10 (call_Submit endless_job (returns None))).
  split; [apply pool1_created|]. by apply pool1_queued_run.
Qed.

Lemma Submit_QueueFull_witness :
  Submit pool1_full endless_job = [(returns (Some errQueueFull), pool1_full)].
Proof.
  destruct (Submit_QueueFull pool1_full pool1_full_reachable eq_refl eq_refl)
    as (_ & Hfull & _).
  apply Hfull. reflexivity.
Defined.

(** *** GetResults *)



(** *** executeJob *)

Lemma Stop_begin_goroutines wp :
  match Stop_begin wp with
  | stop_returned wp' | stop_panicked _ wp' | stop_waiting wp' =>
      goroutines wp' = goroutines wp /\ buf (results wp') = buf (results wp) /\
      started wp' = started wp /\ wg wp' = wg wp
  end.
Proof.
  unfold Stop_begin. destruct (started wp) eqn:Hs; simpl; [|done].
  by destruct (closed (jobQueue wp)).
Qed.

Lemma step_Stop_begin_frame wp l wp' :
  step wp l wp' -> mu wp = false -> is_Stop l = true ->
  goroutines wp' = goroutines wp /\ buf (results wp') = buf (results wp) /\
  started wp' = started wp /\ wg wp' = wg wp.
Proof.
  intros Hstep Hm HT. pose proof (Stop_begin_goroutines wp) as Hb.
  inversion Hstep; subst; try discriminate; try congruence.
  all: by match goal with H : Stop_begin _ = _ |- _ => rewrite H in Hb end.
Qed.

(** A worker inside a unit-of-work that never returns stays there. *)
Lemma step_Executing_forever wp l wp' (i : nat) job :
  (forall c, TaskFunc job c = task_never_returns) ->
  goroutines wp !! i = Some (Executing job) ->
  step wp l wp' ->
  goroutines wp' !! i = Some (Executing job).
Proof.
  intros Hnever Hi Hstep. destruct Hstep.
  - unfold Start. destruct (started wp) eqn:E; [done|]. simpl.
    destruct (spawn_workers_fields (Z.to_nat (workers wp)) wp)
      as (_ & _ & _ & _ & _ & _ & _ & ->).
    by apply lookup_app_l_Some.
  - by destruct (Submit_pool _ _ _ _ H0) as [->| ->].
  - pose proof (Stop_begin_goroutines wp) as Hb. rewrite H0 in Hb.
    destruct Hb as (-> & _). done.
  - pose proof (Stop_begin_goroutines wp) as Hb. rewrite H0 in Hb.
    destruct Hb as (-> & _). done.
  - pose proof (Stop_begin_goroutines wp) as Hb. rewrite H0 in Hb.
    destruct Hb as (-> & _). done.
  - unfold Stop_end in H0. destruct (wg wp =? 0); [|discriminate].
    destruct (closed (results wp)); inversion H0; subst; done.
  - unfold Stop_end in H0. destruct (wg wp =? 0); [|discriminate].
    destruct (closed (results wp)); inversion H0; subst; done.
  - simpl. rewrite (worker_cases_goroutines _ _ _ _ H0).
    destruct (decide (i0 = i)) as [->|Hne].
    + rewrite Hi in H. inversion H; subst g.
      simpl in H0. unfold executeJob in H0. rewrite Hnever in H0.
      destruct H0.
    + by rewrite list_lookup_insert_ne.
  - by destruct (GetResult_pool _ _ _ H) as [->| ->].
  - done.
Qed.




(** C8.  The Result that executeJob makes carries the job's identifier
    and the payload and error of the unit-of-work as they were returned,
    and the worker delivers that Result as it is.  What Submit returns is
    nil, one of the pool's own three errors or a panic of the send, and is
    the same whatever job is submitted; the error of GetResults is nil or
    the timeout error, and the results it returns are those it received,
    with their errors inside. *)
Theorem job_error_stays_in_Result wp job data err elapsed :
  TaskFunc job (job_context wp job) = task_returns data err elapsed ->
  let result := mk_Result (ID job) data err elapsed in
  executeJob wp job = Some result /\
  worker_cases (Executing job) wp = [(Delivering result, wp)] /\
  (forall wp1 wp2,
     In (Idle, wp2) (worker_cases (Delivering result) wp1) ->
     buf (results wp2) = buf (results wp1) ++ [result]) /\
  (forall wp1 job1 r wp2,
     In (r, wp2) (Submit wp1 job1) ->
     r = returns None \/ r = returns (Some errNotStarted) \/
     r = returns (Some errQueueFull) \/
     (exists e, Err (ctx wp1) = Some e /\ r = returns (Some e)) \/
     r = panics "send on closed channel") /\
  (forall wp1 job1, map fst (Submit wp1 job1) = map fst (Submit wp1 job)) /\
  (forall count events rs e,
     GetResults count events = collect_returns rs e ->
     map received rs = take (length rs) events /\
     (e = None \/
      e = Some (errCollectTimeout (Z.of_nat (length rs)) count))).
Proof.
  intros Htask result.
  assert (He : executeJob wp job = Some result).
  { unfold executeJob. by rewrite Htask. }
  split; [done|]. split; [simpl; by rewrite He|].
  split; [|split; [|split]].
  - intros wp1 wp2 Hin. apply worker_cases_spec in Hin.
    destruct Hin as [(job' & Hg & _)
                    |[(_ & Hdead & _)
                    |[(job' & r & Hg & _)
                    |(r & Hg & _ & _ & _ & ->)]]]; try discriminate.
    by inversion Hg; subst.
  - apply Submit_returns.
  - intros wp1 job1. apply Submit_returns_any_job.
  - intros count events rs e. unfold GetResults.
    destruct (count <? 0); [discriminate|]. intros H.
    apply GetResults_loop_returns in H as (got & -> & Htake & He').
    done.
Qed.

Lemma job_error_stays_in_Result_witness :
  executeJob pool1 failing_job
  = Some (mk_Result 3 nil_value (Some errRefused) 12).
Proof.
  apply (job_error_stays_in_Result pool1 failing_job nil_value
           (Some errRefused) 12).
  reflexivity.
Defined.

(** *** The pool's own errors *)



(** ** Benchmark statistics *)

Lemma record_all_snoc calls call dbp :
  record_all (calls ++ [call]) dbp
  = RecordOperation (fst call) (snd call) (record_all calls dbp).
Proof. unfold record_all. by rewrite fold_left_app. Qed.

Lemma recorded_snoc operation calls call :
  recorded operation (calls ++ [call])
  = recorded operation calls
    ++ (if decide (fst call = operation) then [snd call] else []).
Proof.
  unfold recorded. rewrite filter_app, fmap_app. f_equal.
  rewrite filter_cons, filter_nil. by destruct (decide (fst call = operation)).
Qed.

(** What the two maps hold after a sequence of RecordOperation calls on a
    new pool. *)
Lemma record_all_lookup calls operation dbp0 :
  operations dbp0 = ∅ -> durations dbp0 = ∅ ->
  let ds := recorded operation calls in
  let dbp := record_all calls dbp0 in
  durations dbp !! operation = (if ds is [] then None else Some ds) /\
  operations dbp !! operation
  = (if ds is [] then None else Some (wrap64 (Z.of_nat (length ds)))).
Proof.
  intros Ho Hd. induction calls as [|[op d] calls IH] using rev_ind; simpl.
  - by rewrite Ho, Hd.
  - simpl in IH. destruct IH as [IHd IHo].
    rewrite record_all_snoc, recorded_snoc. simpl.
    destruct (decide (op = operation)) as [->|Hne].
    + rewrite !lookup_insert_eq, IHd, IHo.
      destruct (recorded operation calls) as [|d0 ds]; simpl; [done|].
      split; [done|]. f_equal.
      rewrite wrap64_add_l, length_app. simpl. f_equal. lia.
    + rewrite !lookup_insert_ne by done. by rewrite app_nil_r.
Qed.

Lemma scan_durations_spec ds total min max :
  scan_durations ds (wrap64 total, min, max)
  = (wrap64 (total + sum_durations ds),
     fold_left Z.min ds min, fold_left Z.max ds max).
Proof.
  unfold scan_durations. revert total min max.
  induction ds as [|d ds IH]; intros total min max; simpl.
  - by rewrite Z.add_0_r.
  - rewrite wrap64_add_l, IH. f_equal; [f_equal|].
    + f_equal. lia.
    + f_equal. destruct (Z.ltb_spec d min); lia.
    + f_equal. destruct (Z.ltb_spec max d); lia.
Qed.

Lemma fold_left_min_spec ds m :
  let r := fold_left Z.min ds m in
  r <= m /\ (forall d, In d ds -> r <= d) /\ (r = m \/ In r ds).
Proof.
  revert m. induction ds as [|d ds IH]; intros m; simpl.
  - split; [lia|]. split; [tauto|by left].
  - destruct (IH (Z.min m d)) as (H1 & H2 & H3).
    split; [lia|]. split.
    + intros d' [<-|Hin]; [lia|by apply H2].
    + destruct H3 as [H3|H3]; [|by right; right].
      rewrite H3.
      destruct (Z.min_spec m d) as [[_ E]|[_ E]]; lia.
Qed.

Lemma fold_left_max_spec ds m :
  let r := fold_left Z.max ds m in
  m <= r /\ (forall d, In d ds -> d <= r) /\ (r = m \/ In r ds).
Proof.
  revert m. induction ds as [|d ds IH]; intros m; simpl.
  - split; [lia|]. split; [tauto|by left].
  - destruct (IH (Z.max m d)) as (H1 & H2 & H3).
    split; [lia|]. split.
    + intros d' [<-|Hin]; [lia|by apply H2].
    + destruct H3 as [H3|H3]; [|by right; right].
      rewrite H3.
      destruct (Z.max_spec m d) as [[_ E]|[_ E]]; lia.
Qed.

Lemma sum_durations_bounds ds lo hi :
  (forall d, In d ds -> lo <= d <= hi) ->
  Z.of_nat (length ds) * lo <= sum_durations ds <= Z.of_nat (length ds) * hi.
Proof.
  induction ds as [|d ds IH]; intros Hb; simpl; [lia|].
  pose proof (Hb d (or_introl eq_refl)).
  assert (Z.of_nat (length ds) * lo <= sum_durations ds
          <= Z.of_nat (length ds) * hi) by (apply IH; intros; apply Hb; by right).
  lia.
Qed.

(** Truncating division of a sum by the number of its terms stays between
    the bounds of the terms. *)
Lemma quot_between n lo hi total :
  0 < n -> n * lo <= total <= n * hi -> lo <= Z.quot total n <= hi.
Proof.
  intros Hn Hb.
  pose proof (Z.quot_rem' total n) as Hqr.
  pose proof (Z.rem_bound_abs total n ltac:(lia)) as Hr.
  set (q := Z.quot total n) in *. set (r := Z.rem total n) in *.
  split; nia.
Qed.

Lemma summarize_spec d0 rest :
  let ds := d0 :: rest in
  exists total min max avg,
    summarize d0 rest = (total, min, max, avg) /\
    total = wrap64 (sum_durations ds) /\
    (In min ds /\ forall d, In d ds -> min <= d) /\
    (In max ds /\ forall d, In d ds -> d <= max) /\
    avg = Z.quot total (Z.of_nat (length ds)) /\
    (is_int64 (sum_durations ds) -> total = sum_durations ds /\ min <= avg <= max).
Proof.
  intros ds. unfold summarize.
  change 0 with (wrap64 0) at 1. rewrite scan_durations_spec. fold ds.
  do 4 eexists. split; [reflexivity|]. split; [by rewrite Z.add_0_l|].
  destruct (fold_left_min_spec ds d0) as (Hm1 & Hm2 & Hm3).
  destruct (fold_left_max_spec ds d0) as (HM1 & HM2 & HM3).
  assert (Hd0 : In d0 ds) by (by left).
  split; [split; [by destruct Hm3 as [->|]|done]|].
  split; [split; [by destruct HM3 as [->|]|done]|].
  split; [done|]. intros Hsum. rewrite Z.add_0_l, (wrap64_id _ Hsum).
  split; [done|]. apply quot_between; [simpl; lia|].
  apply sum_durations_bounds. intros d Hd. split; auto.
Qed.




(** * Further properties of the pool *)

(** ** The fields a step keeps *)

Lemma Stop_begin_fields wp :
  match Stop_begin wp with
  | stop_returned wp' | stop_panicked _ wp' | stop_waiting wp' =>
      workers wp' = workers wp /\
      buf (jobQueue wp') = buf (jobQueue wp) /\
      results wp' = results wp /\
      (forall e, Err (ctx wp) = Some e -> Err (ctx wp') = Some e) /\
      (closed (jobQueue wp) = true -> closed (jobQueue wp') = true)
  end.
Proof.
  unfold Stop_begin. destruct (started wp) eqn:Hs; simpl; [|done].
  assert (Hc : forall e, Err (ctx wp) = Some e ->
                         Err (ctx_cancel (ctx wp)) = Some e).
  { intros e He. unfold ctx_cancel. by rewrite He. }
  by destruct (closed (jobQueue wp)) eqn:E.
Qed.

Lemma Stop_end_fields wp :
  match Stop_end wp with
  | Some (stop_returned wp') | Some (stop_panicked _ wp')
  | Some (stop_waiting wp') =>
      workers wp' = workers wp /\ jobQueue wp' = jobQueue wp /\
      buf (results wp') = buf (results wp) /\ ctx wp' = ctx wp /\
      goroutines wp' = goroutines wp /\ wg wp' = wg wp /\
      (closed (results wp) = true -> closed (results wp') = true)
  | None => True
  end.
Proof.
  unfold Stop_end. destruct (wg wp =? 0); [|done].
  by destruct (closed (results wp)) eqn:E.
Qed.

Lemma step_workers wp l wp' : step wp l wp' -> workers wp' = workers wp.
Proof.
  intros Hstep. destruct Hstep.
  - apply Start_fields.
  - by destruct (Submit_pool _ _ _ _ H0) as [->| ->].
  - pose proof (Stop_begin_fields wp) as Hb. rewrite H0 in Hb. tauto.
  - pose proof (Stop_begin_fields wp) as Hb. rewrite H0 in Hb. tauto.
  - pose proof (Stop_begin_fields wp) as Hb. rewrite H0 in Hb. tauto.
  - pose proof (Stop_end_fields wp) as Hb. rewrite H0 in Hb. tauto.
  - pose proof (Stop_end_fields wp) as Hb. rewrite H0 in Hb. tauto.
  - simpl. apply (worker_cases_fields _ _ _ _ H0).
  - by destruct (GetResult_pool _ _ _ H) as [->| ->].
  - done.
Qed.

Lemma step_wg wp l wp' :
  pool_inv wp -> step wp l wp' ->
  wg wp' = wg wp \/ wg wp' = wg wp - 1 \/
  (wg wp = 0 /\ wg wp' = workers wp).
Proof.
  intros Hinv Hstep. destruct Hstep.
  - unfold Start. destruct (started wp) eqn:Hs; [by left|].
    right; right. pose proof (inv_stopped _ Hinv Hs) as H0.
    split; [done|]. simpl.
    destruct (spawn_workers_fields (Z.to_nat (workers wp)) wp)
      as (_ & _ & _ & _ & _ & _ & -> & _).
    pose proof (inv_workers _ Hinv). lia.
  - left. by destruct (Submit_pool _ _ _ _ H0) as [->| ->].
  - pose proof (Stop_begin_goroutines wp) as Hb. rewrite H0 in Hb.
    left. tauto.
  - pose proof (Stop_begin_goroutines wp) as Hb. rewrite H0 in Hb.
    left. tauto.
  - pose proof (Stop_begin_goroutines wp) as Hb. rewrite H0 in Hb.
    left. tauto.
  - pose proof (Stop_end_fields wp) as Hb. rewrite H0 in Hb. left. tauto.
  - pose proof (Stop_end_fields wp) as Hb. rewrite H0 in Hb. left. tauto.
  - simpl. apply worker_cases_spec in H0.
    destruct H0 as [(job & -> & Hh & -> & ->)
                   |[(_ & Hdead & ->)
                   |[(job & r & -> & He & -> & ->)
                   |(r & -> & Hc & Hlt & -> & ->)]]]; simpl; auto.
  - left. by destruct (GetResult_pool _ _ _ H) as [->| ->].
  - by left.
Qed.

(** X1.  In every state a pool can reach, the counter of the WaitGroup is
    the number of worker goroutines that are alive; it is never negative
    and never above [workers], restarts after Stop included; and while
    the started flag is false no worker is alive. *)
Theorem live_workers_bounded wp :
  reachable wp ->
  wg wp = count_alive (goroutines wp) /\
  0 <= wg wp <= workers wp /\
  (started wp = false -> all_exited wp).
Proof.
  intros Hreach. pose proof (reachable_inv _ Hreach) as Hinv.
  split; [apply (inv_wg _ Hinv)|]. split.
  - split.
    + rewrite (inv_wg _ Hinv). apply count_alive_nonneg.
    + destruct Hreach as (wp0 & tr & Hc & Hrun).
      pose proof (created_inv _ Hc) as Hinv0.
      assert (H0 : wg wp0 <= workers wp0).
      { destruct Hc as (n & p & w & _ & _ & _ & Hnew).
        unfold NewWorkerPool in Hnew.
        destruct (make_chan _); [|discriminate].
        destruct (make_chan _); [|discriminate].
        inversion Hnew; subst; simpl in *.
        pose proof (inv_workers _ Hinv0) as Hw. simpl in Hw. lia. }
      clear Hinv. induction Hrun as [wp0|wp0 tr wp1 l wp2 Hrun IH Hstep];
        [done|].
      specialize (IH Hc Hinv0 H0).
      pose proof (run_inv _ _ _ Hinv0 Hrun) as Hinv1.
      rewrite (step_workers _ _ _ Hstep).
      pose proof (inv_wg _ Hinv1). pose proof (count_alive_nonneg (goroutines wp1)).
      destruct (step_wg _ _ _ Hinv1 Hstep) as [->|[->|[_ ->]]]; lia.
  - intros Hs i g Hi. pose proof (inv_stopped _ Hinv Hs) as H0.
    rewrite (inv_wg _ Hinv) in H0. eauto using count_alive_0.
Qed.

Lemma live_workers_bounded_witness :
  wg pool1_busy = count_alive (goroutines pool1_busy) /\
  0 <= wg pool1_busy <= workers pool1_busy /\
  (started pool1_busy = false -> all_exited pool1_busy).
Proof. apply (live_workers_bounded pool1_busy pool1_busy_reachable). Defined.

(** ** Cancelling and closing are for good *)

Lemma step_permanent wp l wp' :
  step wp l wp' ->
  (forall e, Err (ctx wp) = Some e -> Err (ctx wp') = Some e) /\
  (closed (jobQueue wp) = true -> closed (jobQueue wp') = true) /\
  (closed (results wp) = true -> closed (results wp') = true).
Proof.
  intros Hstep. destruct Hstep.
  - destruct (Start_fields wp) as (_ & _ & -> & -> & ->). done.
  - by destruct (Submit_pool _ _ _ _ H0) as [->| ->].
  - pose proof (Stop_begin_fields wp) as Hb. rewrite H0 in Hb.
    destruct Hb as (_ & _ & -> & ? & ?). done.
  - pose proof (Stop_begin_fields wp) as Hb. rewrite H0 in Hb.
    destruct Hb as (_ & _ & -> & ? & ?). done.
  - pose proof (Stop_begin_fields wp) as Hb. rewrite H0 in Hb.
    destruct Hb as (_ & _ & -> & ? & ?). done.
  - pose proof (Stop_end_fields wp) as Hb. rewrite H0 in Hb.
    destruct Hb as (_ & -> & _ & -> & _ & _ & ?). done.
  - pose proof (Stop_end_fields wp) as Hb. rewrite H0 in Hb.
    destruct Hb as (_ & -> & _ & -> & _ & _ & ?). done.
  - simpl.
    destruct (worker_cases_fields _ _ _ _ H0) as (_ & _ & _ & -> & -> & ->).
    done.
  - by destruct (GetResult_pool _ _ _ H) as [->| ->].
  - simpl. split; [|done]. intros e' He. congruence.
Qed.

(** X2.  Nothing undoes a shutdown.  Over any sequence of calls and worker
    moves, Start included, a context that is done stays done with the
    same error, a closed job queue stays closed and a closed result
    channel stays closed. *)
Theorem shutdown_is_permanent wp tr wp' :
  run wp tr wp' ->
  (forall e, Err (ctx wp) = Some e -> Err (ctx wp') = Some e) /\
  (closed (jobQueue wp) = true -> closed (jobQueue wp') = true) /\
  (closed (results wp) = true -> closed (results wp') = true).
Proof.
  intros Hrun. induction Hrun as [wp|wp tr wp1 l wp2 Hrun IH Hstep]; [done|].
  destruct IH as (IH1 & IH2 & IH3).
  destruct (step_permanent _ _ _ Hstep) as (H1 & H2 & H3).
  repeat split; eauto.
Qed.

Lemma shutdown_is_permanent_witness :
  (forall e, Err (ctx pool1_stopped) = Some e ->
             Err (ctx (Start pool1_stopped)) = Some e) /\
  (closed (jobQueue pool1_stopped) = true ->
   closed (jobQueue (Start pool1_stopped)) = true) /\
  (closed (results pool1_stopped) = true ->
   closed (results (Start pool1_stopped)) = true).
Proof.
  apply (shutdown_is_permanent pool1_stopped [call_Start]
           (Start pool1_stopped)).
  eapply run_cons; [apply step_Start; reflexivity|apply run_nil].
Defined.

Lemma tail_drop {A} (l : list A) k : tail (drop k l) = drop (S k) l.
Proof.
  revert l. induction k as [|k IH]; intros l.
  - by destruct l; [|rewrite drop_0].
  - destruct l; [done|]. apply IH.
Qed.

Lemma step_closed_results wp l wp' :
  step wp l wp' -> closed (results wp) = true ->
  buf (results wp') = buf (results wp) \/
  buf (results wp') = tail (buf (results wp)).
Proof.
  intros Hstep Hc. destruct Hstep.
  - left. by destruct (Start_fields wp) as (_ & _ & _ & -> & _).
  - left. by destruct (Submit_pool _ _ _ _ H0) as [->| ->].
  - pose proof (Stop_begin_fields wp) as Hb. rewrite H0 in Hb.
    destruct Hb as (_ & _ & -> & _). by left.
  - pose proof (Stop_begin_fields wp) as Hb. rewrite H0 in Hb.
    destruct Hb as (_ & _ & -> & _). by left.
  - pose proof (Stop_begin_fields wp) as Hb. rewrite H0 in Hb.
    destruct Hb as (_ & _ & -> & _). by left.
  - pose proof (Stop_end_fields wp) as Hb. rewrite H0 in Hb.
    destruct Hb as (_ & _ & -> & _). by left.
  - pose proof (Stop_end_fields wp) as Hb. rewrite H0 in Hb.
    destruct Hb as (_ & _ & -> & _). by left.
  - left. simpl. apply worker_cases_spec in H0.
    destruct H0 as [(job & -> & Hh & -> & ->)
                   |[(_ & Hdead & ->)
                   |[(job & r & -> & He & -> & ->)
                   |(r & -> & Hc' & Hlt & -> & ->)]]]; try done.
    congruence.
  - destruct (GetResult_pool _ _ _ H) as [->| ->]; [by left|by right].
  - by left.
Qed.

(** X3.  Once the result channel is closed, which Stop does last, no
    worker delivers a Result into it any more: whatever happens next, the
    channel holds what is left of the results it held, with those
    received since taken off the front. *)
Theorem closed_results_take_nothing wp tr wp' :
  run wp tr wp' -> closed (results wp) = true ->
  closed (results wp') = true /\
  exists k : nat, buf (results wp') = drop k (buf (results wp)).
Proof.
  intros Hrun Hc. induction Hrun as [wp|wp tr wp1 l wp2 Hrun IH Hstep].
  - split; [done|]. by exists 0%nat.
  - destruct (IH Hc) as (Hc1 & k & Hk).
    split; [by apply (step_permanent _ _ _ Hstep)|].
    destruct (step_closed_results _ _ _ Hstep Hc1) as [->| ->].
    + by exists k.
    + exists (S k). by rewrite Hk, tail_drop.
Qed.

Lemma closed_results_take_nothing_witness :
  closed (results (Start pool1_stopped)) = true /\
  exists k : nat,
    buf (results (Start pool1_stopped)) = drop k (buf (results pool1_stopped)).
Proof.
  apply (closed_results_take_nothing pool1_stopped [call_Start]).
  - eapply run_cons; [apply step_Start; reflexivity|apply run_nil].
  - reflexivity.
Defined.

Lemma step_closed_unlocked wp l wp' :
  step wp l wp' -> closed (jobQueue wp) = true -> mu wp = false ->
  mu wp' = false.
Proof.
  intros Hstep Hc Hm. destruct Hstep; try congruence.
  - by destruct (Start_fields wp) as (_ & -> & _).
  - by destruct (Submit_pool _ _ _ _ H0) as [->| ->].
  - unfold Stop_begin in H0. destruct (started wp); simpl in H0;
      [rewrite Hc in H0; discriminate|by inversion H0; subst].
  - unfold Stop_begin in H0. destruct (started wp); simpl in H0;
      [rewrite Hc in H0|]; discriminate.
  - unfold Stop_begin in H0. destruct (started wp); simpl in H0;
      [rewrite Hc in H0; by inversion H0; subst|discriminate].
  - simpl. by destruct (worker_cases_fields _ _ _ _ H0) as (_ & -> & _).
  - by destruct (GetResult_pool _ _ _ H) as [->| ->].
  - done.
Qed.

(** X4.  Stop works once.  After Stop has returned on a started pool,
    whatever is called next, the lock is free and a further call of Stop
    never gets to wait for workers: it returns at once while the pool is
    not started, and once Start has been called again it panics on closing
    the job queue a second time. *)
Theorem Stop_after_Stop wp wp1 tr wp2 :
  reachable wp -> started wp = true -> step wp Stop_returns wp1 ->
  run wp1 tr wp2 ->
  mu wp2 = false /\
  (started wp2 = false -> Stop_begin wp2 = stop_returned wp2) /\
  (started wp2 = true ->
   Stop_begin wp2
   = stop_panicked "close of closed channel"
       (with_ctx (ctx_cancel (ctx wp2)) wp2)).
Proof.
  intros Hreach Hs Hstep Hrun.
  destruct (Stop_returns_started _ _ Hstep Hs) as (Hm & _ & _ & Heq).
  destruct (inv_mu _ (reachable_inv _ Hreach) Hm) as (_ & Hcj & _).
  assert (Hc1 : closed (jobQueue wp1) = true) by (by subst wp1).
  assert (Hm1 : mu wp1 = false) by (by subst wp1).
  clear Heq Hstep.
  assert (H : closed (jobQueue wp2) = true /\ mu wp2 = false).
  { induction Hrun as [wp1|wp1 tr wp2 l wp3 Hrun IH Hstep]; [done|].
    destruct (IH Hc1 Hm1) as [Hc2 Hm2].
    split; [by apply (step_permanent _ _ _ Hstep)|].
    eauto using step_closed_unlocked. }
  destruct H as [Hc2 Hm2]. split; [done|].
  unfold Stop_begin. split; intros ->; simpl; [done|].
  by rewrite Hc2.
Qed.

Lemma Stop_after_Stop_witness :
  mu (Start pool1_stopped) = false /\
  (started (Start pool1_stopped) = false ->
   Stop_begin (Start pool1_stopped) = stop_returned (Start pool1_stopped)) /\
  (started (Start pool1_stopped) = true ->
   Stop_begin (Start pool1_stopped)
   = stop_panicked "close of closed channel"
       (with_ctx (ctx_cancel (ctx (Start pool1_stopped)))
          (Start pool1_stopped))).
Proof.
  apply (Stop_after_Stop pool1_stopping pool1_stopped [call_Start]).
  - apply pool1_stopping_reachable.
  - reflexivity.
  - apply pool1_stopped_step.
  - eapply run_cons; [apply step_Start; reflexivity|apply run_nil].
Defined.

(** ** Stop comes to an end *)

Lemma count_alive_pos gs :
  0 < count_alive gs -> exists (i : nat) g, gs !! i = Some g /\ alive g = true.
Proof.
  induction gs as [|g gs IH]; simpl; [lia|]. intros Hpos.
  destruct (alive g) eqn:E.
  - by exists 0%nat, g.
  - destruct IH as (i & g' & Hi & Ha); [lia|]. by exists (S i), g'.
Qed.

Lemma with_goroutines_id wp n :
  n = 0 -> with_goroutines (goroutines wp) (with_wg (wg wp - n) wp) = wp.
Proof.
  intros ->. destruct wp. unfold with_goroutines, with_wg. simpl.
  f_equal. lia.
Qed.

(** With the context cancelled, a live worker whose unit-of-work returns
    can leave: at most one move to finish the job, one to exit. *)
Lemma worker_can_exit wp (i : nat) g e :
  Err (ctx wp) = Some e ->
  goroutines wp !! i = Some g -> alive g = true ->
  (forall job c, g = Executing job -> TaskFunc job c <> task_never_returns) ->
  exists tr,
    run wp tr (with_goroutines (<[i:=Exited]> (goroutines wp)) (wg_Done wp)).
Proof.
  intros He Hi Ha Hret.
  assert (Hexit : forall g0 wp0,
            Err (ctx wp0) = Some e -> g0 = Idle \/ (exists r, g0 = Delivering r) ->
            In (Exited, wg_Done wp0) (worker_cases g0 wp0)).
  { intros g0 wp0 He0 [->|[r ->]]; simpl; apply in_or_app; right;
      rewrite He0; by left. }
  destruct g as [|job|r| |]; try discriminate.
  - exists [worker_runs i]. eapply run_cons; [|apply run_nil].
    eapply step_worker_to; [exact Hi|apply Hexit; eauto|reflexivity].
  - destruct (executeJob wp job) as [r|] eqn:Hexec.
    + exists [worker_runs i; worker_runs i].
      eapply run_cons.
      { eapply step_worker_to; [exact Hi| |reflexivity].
        simpl. rewrite Hexec. by left. }
      eapply run_cons; [|apply run_nil].
      eapply step_worker_to.
      * simpl. apply list_lookup_insert_eq. by eapply lookup_lt_Some.
      * apply Hexit; [exact He|eauto].
      * simpl. by rewrite list_insert_insert_eq.
    + unfold executeJob in Hexec.
      destruct (TaskFunc job (job_context wp job)) eqn:Ht; [discriminate|].
      by destruct (Hret job (job_context wp job) eq_refl).
  - exists [worker_runs i]. eapply run_cons; [|apply run_nil].
    eapply step_worker_to; [exact Hi|apply Hexit; eauto|reflexivity].
Qed.

Lemma workers_can_exit (n : nat) wp e :
  Err (ctx wp) = Some e ->
  count_alive (goroutines wp) = Z.of_nat n ->
  tasks_return wp ->
  exists tr gs,
    run wp tr (with_goroutines gs (with_wg (wg wp - Z.of_nat n) wp)) /\
    forall (i : nat) g, gs !! i = Some g -> alive g = false.
Proof.
  revert wp. induction n as [|n IH]; intros wp He Hn Hret.
  - exists [], (goroutines wp). rewrite with_goroutines_id by lia.
    split; [apply run_nil|]. intros i g Hi. eauto using count_alive_0.
  - destruct (count_alive_pos (goroutines wp)) as (i & g & Hi & Ha); [lia|].
    destruct (worker_can_exit wp i g e He Hi Ha) as (tr1 & Hrun1).
    { intros job c ->. by apply (Hret i). }
    set (wp1 := with_goroutines (<[i:=Exited]> (goroutines wp)) (wg_Done wp))
      in *.
    destruct (IH wp1) as (tr2 & gs & Hrun2 & Hdead).
    + done.
    + simpl. rewrite (count_alive_insert _ _ _ _ Hi), Ha. simpl. lia.
    + intros j job c Hj. simpl in Hj.
      destruct (decide (i = j)) as [->|Hne].
      * rewrite list_lookup_insert_eq in Hj by (by eapply lookup_lt_Some).
        discriminate.
      * rewrite list_lookup_insert_ne in Hj by done. by apply (Hret j).
    + exists (tr1 ++ tr2), gs. split; [|done].
      apply (run_app _ _ _ _ _ Hrun1).
      replace (with_goroutines gs (with_wg (wg wp - Z.of_nat (S n)) wp))
        with (with_goroutines gs (with_wg (wg wp1 - Z.of_nat n) wp1)); [done|].
      unfold wp1, with_goroutines, with_wg, wg_Done. simpl. f_equal. lia.
Qed.



(** ** Where jobs and results come from *)

Lemma Submit_accepts wp job r wp' :
  In (r, wp') (Submit wp job) ->
  (r = returns None /\
   wp' = with_jobQueue (chan_push job (jobQueue wp)) wp) \/
  (accepted_job (call_Submit job r) = None /\ wp' = wp).
Proof.
  unfold Submit. destruct (started wp); simpl; [|intros; in_cases; auto].
  destruct (closed (jobQueue wp)); simpl.
  - destruct (Err (ctx wp)); simpl; intros; in_cases; auto.
  - destruct (len (jobQueue wp) <? cap (jobQueue wp));
      destruct (Err (ctx wp)); simpl; intros; in_cases; auto.
Qed.

Lemma accepted_snoc tr l :
  accepted (tr ++ [l])
  = accepted tr ++ match accepted_job l with Some job => [job] | None => [] end.
Proof.
  unfold accepted. rewrite omap_app. simpl. by destruct (accepted_job l).
Qed.

Lemma In_tail {A} (x : A) l : In x (tail l) -> In x l.
Proof. destruct l; simpl; auto. Qed.

Lemma head_In {A} (x : A) l : head l = Some x -> In x l.
Proof. destruct l; simpl; [done|]. intros H. inversion H. by left. Qed.

Lemma Start_lookup wp (i : nat) g :
  goroutines (Start wp) !! i = Some g ->
  goroutines wp !! i = Some g \/ g = Idle.
Proof.
  unfold Start. destruct (started wp); [by left|]. simpl.
  destruct (spawn_workers_fields (Z.to_nat (workers wp)) wp)
    as (_ & _ & _ & _ & _ & _ & _ & ->).
  intros H. apply lookup_app_Some in H as [H|[_ H]]; [by left|].
  apply lookup_replicate in H as [-> _]. by right.
Qed.

(** A step brings a job into the pool only by a Submit that accepts it. *)
Lemma step_holds_job wp l wp' job :
  step wp l wp' -> holds_job wp' job ->
  holds_job wp job \/ accepted_job l = Some job.
Proof.
  unfold holds_job. intros Hstep Hh. destruct Hstep.
  - left. destruct (Start_fields wp) as (_ & _ & HJ & _). rewrite HJ in Hh.
    destruct Hh as [Hh|[i Hi]]; [by left|].
    apply Start_lookup in Hi as [Hi|Hi]; [right; by exists i|discriminate].
  - destruct (Submit_accepts _ _ _ _ H0) as [[-> ->]|[_ ->]]; [|by left].
    simpl in Hh. destruct Hh as [Hh|Hh]; [|by left; right].
    apply in_app_or in Hh as [Hh|[<-|[]]]; [by left; left|by right].
  - left. pose proof (Stop_begin_fields wp) as Hf. rewrite H0 in Hf.
    pose proof (Stop_begin_goroutines wp) as Hg. rewrite H0 in Hg.
    destruct Hf as (_ & <- & _). by destruct Hg as (<- & _).
  - left. pose proof (Stop_begin_fields wp) as Hf. rewrite H0 in Hf.
    pose proof (Stop_begin_goroutines wp) as Hg. rewrite H0 in Hg.
    destruct Hf as (_ & <- & _). by destruct Hg as (<- & _).
  - left. pose proof (Stop_begin_fields wp) as Hf. rewrite H0 in Hf.
    pose proof (Stop_begin_goroutines wp) as Hg. rewrite H0 in Hg.
    destruct Hf as (_ & <- & _). by destruct Hg as (<- & _).
  - left. pose proof (Stop_end_fields wp) as Hf. rewrite H0 in Hf.
    by destruct Hf as (_ & <- & _ & _ & <- & _).
  - left. pose proof (Stop_end_fields wp) as Hf. rewrite H0 in Hf.
    by destruct Hf as (_ & <- & _ & _ & <- & _).
  - left. simpl in Hh. apply worker_cases_spec in H0.
    destruct H0 as [(job' & -> & Hhead & -> & ->)
                   |[(_ & Hdead & ->)
                   |[(job' & r & -> & He & -> & ->)
                   |(r & -> & Hc & Hlt & -> & ->)]]]; simpl in Hh.
    + destruct Hh as [Hh|[j Hj]]; [by left; apply In_tail|].
      apply list_lookup_insert_Some in Hj as [(_ & Hj & _)|[_ Hj]].
      * inversion Hj; subst. left. by apply head_In.
      * right. by exists j.
    + destruct Hh as [Hh|[j Hj]]; [by left|].
      apply list_lookup_insert_Some in Hj as [(_ & Hj & _)|[_ Hj]].
      * subst g'. discriminate.
      * right. by exists j.
    + destruct Hh as [Hh|[j Hj]]; [by left|].
      apply list_lookup_insert_Some in Hj as [(_ & Hj & _)|[_ Hj]];
        [discriminate|]. right. by exists j.
    + destruct Hh as [Hh|[j Hj]]; [by left|].
      apply list_lookup_insert_Some in Hj as [(_ & Hj & _)|[_ Hj]];
        [discriminate|]. right. by exists j.
  - left. destruct (GetResult_pool _ _ _ H) as [->| ->]; done.
  - by left.
Qed.

(** A step brings a Result into the pool only by executeJob on a job the
    pool holds. *)
Lemma step_holds_result wp l wp' r :
  step wp l wp' -> holds_result wp' r ->
  holds_result wp r \/
  exists job, holds_job wp job /\ executeJob wp job = Some r.
Proof.
  unfold holds_result. intros Hstep Hh. destruct Hstep.
  - left. destruct (Start_fields wp) as (_ & _ & _ & HR & _). rewrite HR in Hh.
    destruct Hh as [Hh|[i Hi]]; [by left|].
    apply Start_lookup in Hi as [Hi|Hi]; [right; by exists i|discriminate].
  - left. by destruct (Submit_pool _ _ _ _ H0) as [->| ->].
  - left. pose proof (Stop_begin_fields wp) as Hf. rewrite H0 in Hf.
    pose proof (Stop_begin_goroutines wp) as Hg. rewrite H0 in Hg.
    destruct Hf as (_ & _ & <- & _). by destruct Hg as (<- & _).
  - left. pose proof (Stop_begin_fields wp) as Hf. rewrite H0 in Hf.
    pose proof (Stop_begin_goroutines wp) as Hg. rewrite H0 in Hg.
    destruct Hf as (_ & _ & <- & _). by destruct Hg as (<- & _).
  - left. pose proof (Stop_begin_fields wp) as Hf. rewrite H0 in Hf.
    pose proof (Stop_begin_goroutines wp) as Hg. rewrite H0 in Hg.
    destruct Hf as (_ & _ & <- & _). by destruct Hg as (<- & _).
  - left. pose proof (Stop_end_fields wp) as Hf. rewrite H0 in Hf.
    by destruct Hf as (_ & _ & <- & _ & <- & _).
  - left. pose proof (Stop_end_fields wp) as Hf. rewrite H0 in Hf.
    by destruct Hf as (_ & _ & <- & _ & <- & _).
  - simpl in Hh. apply worker_cases_spec in H0.
    destruct H0 as [(job' & -> & Hhead & -> & ->)
                   |[(_ & Hdead & ->)
                   |[(job' & r' & -> & He & -> & ->)
                   |(r' & -> & Hc & Hlt & -> & ->)]]]; simpl in Hh.
    + left. destruct Hh as [Hh|[j Hj]]; [by left|].
      apply list_lookup_insert_Some in Hj as [(_ & Hj & _)|[_ Hj]];
        [discriminate|]. right. by exists j.
    + left. destruct Hh as [Hh|[j Hj]]; [by left|].
      apply list_lookup_insert_Some in Hj as [(_ & Hj & _)|[_ Hj]].
      * subst g'. discriminate.
      * right. by exists j.
    + destruct Hh as [Hh|[j Hj]]; [by left; left|].
      apply list_lookup_insert_Some in Hj as [(_ & Hj & _)|[_ Hj]].
      * inversion Hj; subst. right. exists job'. split; [|done].
        right. by exists i.
      * left. right. by exists j.
    + left. destruct Hh as [Hh|[j Hj]].
      * apply in_app_or in Hh as [Hh|[<-|[]]]; [by left|]. right. by exists i.
      * apply list_lookup_insert_Some in Hj as [(_ & Hj & _)|[_ Hj]];
          [discriminate|]. right. by exists j.
  - left. destruct (GetResult_pool _ _ _ H) as [->| ->]; [done|].
    simpl in Hh. destruct Hh as [Hh|Hh]; [left; by apply In_tail|by right].
  - by left.
Qed.

Lemma made_of_app jobs1 jobs2 r : made_of jobs1 r -> made_of (jobs1 ++ jobs2) r.
Proof.
  intros (job & wp & Hin & He). exists job, wp. split; [|done].
  apply in_or_app. by left.
Qed.

Lemma created_empty wp :
  created wp ->
  buf (jobQueue wp) = [] /\ buf (results wp) = [] /\ goroutines wp = [] /\
  started wp = false /\ mu wp = false.
Proof.
  intros (n & p & w & _ & _ & _ & Hnew). unfold NewWorkerPool in Hnew.
  unfold make_chan in Hnew.
  destruct (_ <? 0); [discriminate|]. destruct (_ <? 0); [discriminate|].
  by inversion Hnew.
Qed.

Lemma run_history wp0 tr wp :
  created wp0 -> run wp0 tr wp ->
  (forall job, holds_job wp job -> In job (accepted tr)) /\
  (forall r, holds_result wp r -> made_of (accepted tr) r).
Proof.
  intros Hc Hrun. induction Hrun as [wp0|wp0 tr wp1 l wp2 Hrun IH Hstep].
  - destruct (created_empty _ Hc) as (Hj & Hr & Hg & _).
    unfold holds_job, holds_result. rewrite Hj, Hr, Hg.
    split; intros x [[]|[i Hi]]; discriminate.
  - destruct (IH Hc) as [IHj IHr]. rewrite accepted_snoc. split.
    + intros job Hh. apply in_or_app.
      destruct (step_holds_job _ _ _ _ Hstep Hh) as [Hold| ->]; [left; auto|].
      right. by left.
    + intros r Hh. apply made_of_app.
      destruct (step_holds_result _ _ _ _ Hstep Hh) as [Hold|(job & Hj & He)];
        [auto|].
      exists job, wp1. auto.
Qed.

(** X6.  The pool makes up no Result.  In every state reached from a new
    pool, each Result in the result channel or in the hands of a
    delivering worker is what executeJob made of a job that an earlier
    Submit accepted, and carries that job's ID; and what a caller
    receives with a nil error is such a Result or, from the closed
    channel, the zero Result. *)
Theorem results_come_from_accepted_jobs wp0 tr wp :
  created wp0 -> run wp0 tr wp ->
  (forall r,
     holds_result wp r ->
     exists job wp1,
       In job (accepted tr) /\ executeJob wp1 job = Some r /\
       JobID r = ID job) /\
  (forall r wp',
     step wp (receives (r, None)) wp' ->
     r = zero_Result \/ made_of (accepted tr) r).
Proof.
  intros Hc Hrun. destruct (run_history _ _ _ Hc Hrun) as [_ Hr]. split.
  - intros r Hh. destruct (Hr r Hh) as (job & wp1 & Hin & He).
    exists job, wp1. repeat split; try done.
    unfold executeJob in He. destruct (TaskFunc job _); [|discriminate].
    by inversion He.
  - intros r wp' Hstep. inversion Hstep as [| | | | | | | |? ? ? Hin|]; subst.
    unfold GetResult in Hin. apply in_app_or in Hin as [Hin|Hin].
    + destruct (buf (results wp)) as [|r0 rest] eqn:Hb.
      * destruct (closed (results wp)); simpl in Hin; in_cases. by left.
      * simpl in Hin. in_cases. right. apply Hr. left. rewrite Hb. by left.
    + destruct (Err (ctx wp)); simpl in Hin; in_cases.
Qed.

Lemma results_come_from_accepted_jobs_witness :
  (forall r,
     holds_result pool1_busy r ->
     exists job wp1,
       In job
         (accepted
            [call_Start; call_Submit endless_job (returns None);
             worker_runs 0]) /\
       executeJob wp1 job = Some r /\ JobID r = ID job) /\
  (forall r wp',
     step pool1_busy (receives (r, None)) wp' ->
     r = zero_Result \/
     made_of
       (accepted
          [call_Start; call_Submit endless_job (returns None); worker_runs 0])
       r).
Proof.
  apply (results_come_from_accepted_jobs pool1).
  - apply pool1_created.
  - apply pool1_busy_run.
Defined.

Lemma step_len_jobQueue wp l wp' :
  step wp l wp' ->
  len (jobQueue wp')
  <= len (jobQueue wp)
     + match accepted_job l with Some _ => 1 | None => 0 end.
Proof.
  intros Hstep. unfold len. destruct Hstep.
  - destruct (Start_fields wp) as (_ & _ & -> & _). simpl. lia.
  - destruct (Submit_accepts _ _ _ _ H0) as [[-> ->]|[-> ->]]; simpl; [|lia].
    rewrite length_app. simpl. lia.
  - pose proof (Stop_begin_fields wp) as Hf. rewrite H0 in Hf.
    destruct Hf as (_ & -> & _). simpl. lia.
  - pose proof (Stop_begin_fields wp) as Hf. rewrite H0 in Hf.
    destruct Hf as (_ & -> & _). simpl. lia.
  - pose proof (Stop_begin_fields wp) as Hf. rewrite H0 in Hf.
    destruct Hf as (_ & -> & _). simpl. lia.
  - pose proof (Stop_end_fields wp) as Hf. rewrite H0 in Hf.
    destruct Hf as (_ & -> & _). simpl. lia.
  - pose proof (Stop_end_fields wp) as Hf. rewrite H0 in Hf.
    destruct Hf as (_ & -> & _). simpl. lia.
  - simpl. apply worker_cases_spec in H0.
    destruct H0 as [(job' & -> & Hhead & -> & ->)
                   |[(_ & Hdead & ->)
                   |[(job' & r & -> & He & -> & ->)
                   |(r & -> & Hc & Hlt & -> & ->)]]]; simpl; try lia.
    destruct (buf (jobQueue wp)); simpl; lia.
  - destruct (GetResult_pool _ _ _ H) as [->| ->]; simpl; lia.
  - simpl. lia.
Qed.

Lemma run_len_jobQueue wp0 tr wp :
  created wp0 -> run wp0 tr wp ->
  len (jobQueue wp) <= Z.of_nat (length (accepted tr)).
Proof.
  intros Hc Hrun. induction Hrun as [wp0|wp0 tr wp1 l wp2 Hrun IH Hstep].
  - destruct (created_empty _ Hc) as (Hj & _). unfold len. rewrite Hj. simpl. lia.
  - specialize (IH Hc). rewrite accepted_snoc, length_app.
    pose proof (step_len_jobQueue _ _ _ Hstep).
    destruct (accepted_job l); simpl; lia.
Qed.

(** X7.  Submit does not turn a job down for a full queue before the
    queue's capacity of jobs has been accepted.  On a pool that is started
    and not cancelled, as long as fewer jobs have been accepted than the
    job queue can hold, Submit accepts the job, however far the workers
    have come, and puts it at the back of the queue. *)
Theorem Submit_accepts_below_capacity wp0 tr wp job :
  created wp0 -> run wp0 tr wp ->
  started wp = true -> Err (ctx wp) = None ->
  Z.of_nat (length (accepted tr)) < cap (jobQueue wp) ->
  cap (jobQueue wp) = wrap64 (workers wp0 * 10) /\
  Submit wp job
  = [(returns None, with_jobQueue (chan_push job (jobQueue wp)) wp)].
Proof.
  intros Hc Hrun Hs He Hlt.
  pose proof (run_inv _ _ _ (created_inv _ Hc) Hrun) as Hinv.
  pose proof (run_len_jobQueue _ _ _ Hc Hrun) as Hlen.
  assert (Hw : workers wp = workers wp0).
  { clear -Hrun. induction Hrun; [done|].
    by rewrite (step_workers _ _ _ H). }
  split; [rewrite <- Hw; apply (inv_cap_jobQueue _ Hinv)|].
  assert (Hcl : closed (jobQueue wp) = false).
  { destruct (closed (jobQueue wp)) eqn:E; [|done].
    by destruct (inv_closed _ Hinv E). }
  rewrite (Submit_open wp job Hs He Hcl).
  destruct (Z.ltb_spec (len (jobQueue wp)) (cap (jobQueue wp))); [done|lia].
Qed.

Lemma Submit_accepts_below_capacity_witness :
  cap (jobQueue (pool1_queued 3)) = wrap64 (workers pool1 * 10) /\
  Submit (pool1_queued 3) failing_job
  = [(returns None,
      with_jobQueue (chan_push failing_job (jobQueue (pool1_queued 3)))
        (pool1_queued 3))].
Proof.
  apply (Submit_accepts_below_capacity pool1
           (call_Start :: replicate 3 (call_Submit endless_job (returns None)))
           (pool1_queued 3) failing_job).
  - apply pool1_created.
  - apply pool1_queued_run. lia.
  - reflexivity.
  - reflexivity.
  - simpl. lia.
Defined.

(** ** Before the first Start *)

Lemma step_unstarted wp l wp' :
  started wp = false -> mu wp = false -> goroutines wp = [] ->
  buf (jobQueue wp) = [] ->
  step wp l wp' -> is_Start l = false ->
  goroutines wp' = [] /\ buf (jobQueue wp') = [] /\ accepted_job l = None.
Proof.
  intros Hs Hm Hg Hj Hstep HS. destruct Hstep; try discriminate.
  - revert H0. unfold Submit. rewrite Hs. simpl.
    intros [H0|[]]. by inversion H0; subst.
  - pose proof (Stop_begin_fields wp) as Hf. rewrite H0 in Hf.
    pose proof (Stop_begin_goroutines wp) as Hb. rewrite H0 in Hb.
    destruct Hf as (_ & -> & _). by destruct Hb as (-> & _).
  - pose proof (Stop_begin_fields wp) as Hf. rewrite H0 in Hf.
    pose proof (Stop_begin_goroutines wp) as Hb. rewrite H0 in Hb.
    destruct Hf as (_ & -> & _). by destruct Hb as (-> & _).
  - pose proof (Stop_begin_fields wp) as Hf. rewrite H0 in Hf.
    pose proof (Stop_begin_goroutines wp) as Hb. rewrite H0 in Hb.
    destruct Hf as (_ & -> & _). by destruct Hb as (-> & _).
  - congruence.
  - congruence.
  - rewrite Hg in H. discriminate.
  - by destruct (GetResult_pool _ _ _ H) as [->| ->].
  - done.
Qed.

(** X8.  Before the first Start the pool does nothing.  Whatever is called
    on a new pool short of Start, Stop included, there is no worker
    goroutine, no job has been accepted or queued, and Submit returns the
    not-started error and leaves the pool as it is. *)
Theorem nothing_before_Start wp0 tr wp job :
  created wp0 -> run wp0 tr wp -> existsb is_Start tr = false ->
  goroutines wp = [] /\ accepted tr = [] /\ buf (jobQueue wp) = [] /\
  Submit wp job = [(returns (Some errNotStarted), wp)].
Proof.
  intros Hc Hrun Hno.
  enough (H : started wp = false /\ mu wp = false /\ goroutines wp = [] /\
              buf (jobQueue wp) = [] /\ accepted tr = []).
  { destruct H as (Hs & _ & Hg & Hj & Ha). repeat split; try done.
    unfold Submit. by rewrite Hs. }
  induction Hrun as [wp0|wp0 tr wp1 l wp2 Hrun IH Hstep].
  - destruct (created_empty _ Hc) as (? & ? & ? & ? & ?). done.
  - rewrite existsb_app in Hno. apply orb_false_iff in Hno as [Hno Hl].
    simpl in Hl. rewrite orb_false_r in Hl.
    destruct (IH Hc Hno) as (Hs & Hm & Hg & Hj & Ha).
    destruct (step_stopped _ _ _ Hs Hm Hstep Hl) as [Hs' Hm'].
    destruct (step_unstarted _ _ _ Hs Hm Hg Hj Hstep Hl) as (? & ? & Hacc).
    rewrite accepted_snoc, Ha, Hacc. done.
Qed.

Lemma nothing_before_Start_witness :
  goroutines pool1 = [] /\ accepted [Stop_returns] = [] /\
  buf (jobQueue pool1) = [] /\
  Submit pool1 endless_job = [(returns (Some errNotStarted), pool1)].
Proof.
  apply (nothing_before_Start pool1 [Stop_returns] pool1).
  - apply pool1_created.
  - eapply run_cons; [apply step_Stop_at_once; reflexivity|apply run_nil].
  - reflexivity.
Defined.

(** ** A burst of submissions *)

Lemma submits_queue jobs wp rs wp' :
  started wp = true -> Err (ctx wp) = None ->
  closed (jobQueue wp) = false ->
  len (jobQueue wp) <= cap (jobQueue wp) ->
  submits wp jobs rs wp' ->
  let free := Z.to_nat (cap (jobQueue wp) - len (jobQueue wp)) in
  wp' = with_jobQueue
          (mk_chan (buf (jobQueue wp) ++ take free jobs) (cap (jobQueue wp))
             false) wp.
Proof.
  revert wp rs. induction jobs as [|job jobs IH]; intros wp rs Hs He Hc Hle Hsub.
  - inversion Hsub; subst. simpl. rewrite take_nil, app_nil_r.
    destruct wp' as [w jq r n c s m gs]. destruct jq as [b k cl].
    simpl in *. by subst cl.
  - inversion Hsub as [|? ? r wp1 ? rs' ? Hin Hsub']; subst.
    rewrite (Submit_open wp job Hs He Hc) in Hin.
    destruct (Z.ltb_spec (len (jobQueue wp)) (cap (jobQueue wp))) as [Hlt|Hge];
      simpl in Hin; destruct Hin as [Hin|[]]; inversion Hin; subst; clear Hin.
    + assert (Hlen : len (chan_push job (jobQueue wp)) = len (jobQueue wp) + 1).
      { unfold len. simpl. rewrite length_app. simpl. lia. }
      apply IH in Hsub'; simpl; try done; [|lia].
      simpl in Hsub'. rewrite Hlen in Hsub'. rewrite Hsub'. simpl.
      replace (Z.to_nat (cap (jobQueue wp) - len (jobQueue wp)))
        with (S (Z.to_nat (cap (jobQueue wp) - (len (jobQueue wp) + 1))))
        by lia.
      simpl. unfold with_jobQueue. simpl. by rewrite <- app_assoc.
    + apply IH in Hsub'; try done. rewrite Hsub'. simpl.
      by replace (Z.to_nat (cap (jobQueue wp1) - len (jobQueue wp1)))
        with 0%nat by lia.
Qed.

(** X9.  Of jobs submitted one after the other to a pool that is started
    and not cancelled, with none taken from the queue meanwhile, exactly
    those that fit in the free space are queued, behind the jobs already
    there and in the order submitted; the jobs turned down are not queued,
    and nothing else in the pool changes. *)
Theorem burst_queues_first_jobs wp jobs rs wp' :
  reachable wp -> started wp = true -> Err (ctx wp) = None ->
  submits wp jobs rs wp' ->
  let free := Z.to_nat (cap (jobQueue wp) - len (jobQueue wp)) in
  buf (jobQueue wp') = buf (jobQueue wp) ++ take free jobs /\
  wp' = with_jobQueue (jobQueue wp') wp.
Proof.
  intros Hreach Hs He Hsub free. pose proof (reachable_inv _ Hreach) as Hinv.
  assert (Hc : closed (jobQueue wp) = false).
  { destruct (closed (jobQueue wp)) eqn:E; [|done].
    by destruct (inv_closed _ Hinv E). }
  rewrite (submits_queue jobs wp rs wp' Hs He Hc (inv_len_jobQueue _ Hinv) Hsub).
  done.
Qed.

Lemma burst_queues_first_jobs_witness :
  let wp' := with_jobQueue
               (mk_chan (replicate 9 endless_job ++ [failing_job]) 10 false)
               (pool1_queued 9) in
  buf (jobQueue wp') = buf (jobQueue (pool1_queued 9)) ++ [failing_job] /\
  wp' = with_jobQueue (jobQueue wp') (pool1_queued 9).
Proof.
  apply (burst_queues_first_jobs (pool1_queued 9) [failing_job; endless_job]
           [returns None; returns (Some errQueueFull)]).
  - exists pool1,
      (call_Start :: replicate 9 (call_Submit endless_job (returns None))).
    split; [apply pool1_created|]. apply pool1_queued_run. lia.
  - reflexivity.
  - reflexivity.
  - eapply submits_cons; [left; reflexivity|].
    eapply submits_cons; [left; reflexivity|]. apply submits_nil.
Defined.

(** ** GetResults and GetResult at the edges *)

Lemma GetResults_loop_count rounds count acc events rs e :
  GetResults_loop rounds count acc events = collect_returns rs e ->
  (e = None -> length rs = (length acc + rounds)%nat) /\
  (e <> None -> (length rs < length acc + rounds)%nat).
Proof.
  revert acc events. induction rounds as [|n IH]; intros acc events H.
  - simpl in H. inversion H; subst. split; [lia|done].
  - destruct events as [|[r|] events]; simpl in H; [discriminate| |].
    + apply IH in H. rewrite length_app in H. simpl in H.
      destruct H as [H1 H2]. split; intros He; [rewrite H1|apply H2 in He];
        try done; lia.
    + inversion H; subst. split; [done|lia].
Qed.



(** X11.  GetResult after shutdown.  In every reachable state in which the
    result channel is closed the pool's context is done, so GetResult
    does not block: it may return the zero Result with the context's
    error, or take the receive case, which yields the oldest Result left
    in the channel or, when none is left, the zero Result with a nil
    error. *)
Theorem GetResult_after_close wp :
  reachable wp -> closed (results wp) = true ->
  exists e,
    Err (ctx wp) = Some e /\
    GetResult wp
    = match buf (results wp) with
      | r :: _ => ((r, None), with_results (chan_pop (results wp)) wp)
      | [] => ((zero_Result, None), wp)
      end
      :: [((zero_Result, Some e), wp)].
Proof.
  intros Hreach Hc. pose proof (reachable_inv _ Hreach) as Hinv.
  pose proof (inv_closed _ Hinv (inv_results_closed _ Hinv Hc)) as Hdone.
  destruct (Err (ctx wp)) as [e|] eqn:He; [|done].
  exists e. split; [done|]. unfold GetResult. rewrite He, Hc.
  by destruct (buf (results wp)).
Qed.

Lemma pool1_stopped_reachable : reachable pool1_stopped.
Proof.
  apply (reachable_step pool1_stopping Stop_returns);
    [apply pool1_stopping_reachable|apply pool1_stopped_step].
Qed.

Lemma GetResult_after_close_witness :
  exists e,
    Err (ctx pool1_stopped) = Some e /\
    GetResult pool1_stopped
    = [((zero_Result, None), pool1_stopped);
       ((zero_Result, Some e), pool1_stopped)].
Proof.
  apply (GetResult_after_close pool1_stopped pool1_stopped_reachable).
  reflexivity.
Defined.

(** * Further properties of the benchmark statistics *)

Lemma stats_lookup Duration_String calls operation dbp0 :
  operations dbp0 = ∅ -> durations dbp0 = ∅ ->
  let ds := recorded operation calls in
  GetBenchmarkStats Duration_String (record_all calls dbp0) !! operation
  = stats_entry Duration_String (wrap64 (Z.of_nat (length ds))) ds.
Proof.
  intros Ho Hd ds.
  destruct (record_all_lookup calls operation dbp0 Ho Hd) as [Hds Hops].
  fold ds in Hds, Hops.
  unfold GetBenchmarkStats. rewrite map_lookup_imap, Hops.
  destruct ds; simpl; [done|]. by rewrite Hds.
Qed.

Lemma recorded_nil operation calls :
  recorded operation calls = [] <-> ~ In operation (map fst calls).
Proof.
  unfold recorded. induction calls as [|[op d] calls IH]; simpl.
  - split; [auto|done].
  - rewrite filter_cons. simpl.
    destruct (decide (op = operation)) as [->|Hne]; simpl.
    + split; [done|]. intros H. destruct H. by left.
    + rewrite IH. split; [intros H [?|?]; [done|auto]|auto].
Qed.

Lemma new_benchmark_pool_empty numCPU parent workers0 dbp0 :
  NewDatabaseBenchmarkPool numCPU parent workers0 = Some dbp0 ->
  operations dbp0 = ∅ /\ durations dbp0 = ∅.
Proof.
  unfold NewDatabaseBenchmarkPool.
  destruct (NewWorkerPool numCPU parent workers0); [|discriminate].
  intros H. by inversion H.
Qed.

(** X12.  The statistics of a new benchmark pool are empty, and after any
    sequence of RecordOperation calls they have an entry for exactly the
    operation names that were recorded at least once. *)
Theorem GetBenchmarkStats_names Duration_String numCPU parent workers0 dbp0 :
  NewDatabaseBenchmarkPool numCPU parent workers0 = Some dbp0 ->
  GetBenchmarkStats Duration_String dbp0 = ∅ /\
  forall calls operation,
    is_Some (GetBenchmarkStats Duration_String (record_all calls dbp0)
             !! operation)
    <-> In operation (map fst calls).
Proof.
  intros Hnew. destruct (new_benchmark_pool_empty _ _ _ _ Hnew) as [Ho Hd].
  split.
  - unfold GetBenchmarkStats. rewrite Ho. apply map_imap_empty.
  - intros calls operation. rewrite (stats_lookup _ _ _ _ Ho Hd).
    pose proof (recorded_nil operation calls) as Hnil.
    destruct (recorded operation calls) as [|d0 rest] eqn:E; simpl.
    + split; [intros [x Hx]; discriminate|]. intros Hin.
      by destruct (proj1 Hnil eq_refl).
    + destruct (summarize d0 rest) as [[[total min] max] avg].
      split; [|by eexists]. intros _.
      destruct (in_dec string_dec operation (map fst calls)) as [|Hn];
        [done|].
      by apply Hnil in Hn.
Qed.

Lemma GetBenchmarkStats_names_witness :
  GetBenchmarkStats nanoseconds bench1 = ∅ /\
  forall calls operation,
    is_Some (GetBenchmarkStats nanoseconds (record_all calls bench1)
             !! operation)
    <-> In operation (map fst calls).
Proof.
  apply (GetBenchmarkStats_names nanoseconds 4 background 1 bench1).
  reflexivity.
Defined.

(** X13.  Recording a duration for one operation leaves the statistics of
    every other operation as they were. *)
Theorem RecordOperation_other Duration_String operation duration dbp other :
  operation <> other ->
  GetBenchmarkStats Duration_String (RecordOperation operation duration dbp)
  !! other
  = GetBenchmarkStats Duration_String dbp !! other.
Proof.
  intros Hne. unfold GetBenchmarkStats, RecordOperation.
  rewrite !map_lookup_imap. simpl.
  by rewrite !lookup_insert_ne.
Qed.

Lemma RecordOperation_other_witness :
  GetBenchmarkStats nanoseconds
    (RecordOperation "insert" 5 (RecordOperation "select" 7 bench1))
  !! "select"
  = GetBenchmarkStats nanoseconds (RecordOperation "select" 7 bench1)
    !! "select".
Proof.
  apply (RecordOperation_other nanoseconds "insert" 5
           (RecordOperation "select" 7 bench1) "select").
  discriminate.
Defined.

Lemma sum_durations_Permutation ds ds' :
  ds ≡ₚ ds' -> sum_durations ds = sum_durations ds'.
Proof.
  intros Hp. induction Hp; simpl; try lia.
Qed.

Lemma summarize_Permutation d0 rest d0' rest' :
  d0 :: rest ≡ₚ d0' :: rest' -> summarize d0 rest = summarize d0' rest'.
Proof.
  intros Hp. unfold summarize.
  change 0 with (wrap64 0). rewrite !scan_durations_spec.
  rewrite (sum_durations_Permutation _ _ Hp), (Permutation_length Hp).
  destruct (fold_left_min_spec (d0 :: rest) d0) as (_ & Hm2 & Hm3).
  destruct (fold_left_min_spec (d0' :: rest') d0') as (_ & Hm2' & Hm3').
  destruct (fold_left_max_spec (d0 :: rest) d0) as (_ & HM2 & HM3).
  destruct (fold_left_max_spec (d0' :: rest') d0') as (_ & HM2' & HM3').
  assert (Hin : forall d, In d (d0 :: rest) <-> In d (d0' :: rest')).
  { intros d. split; apply Permutation_in; [done|by symmetry]. }
  assert (Hmin : fold_left Z.min (d0 :: rest) d0
                 = fold_left Z.min (d0' :: rest') d0').
  { apply Z.le_antisymm.
    - apply Hm2, Hin. destruct Hm3' as [->|]; [by left|done].
    - apply Hm2', Hin. destruct Hm3 as [->|]; [by left|done]. }
  assert (Hmax : fold_left Z.max (d0 :: rest) d0
                 = fold_left Z.max (d0' :: rest') d0').
  { apply Z.le_antisymm.
    - apply HM2', Hin. destruct HM3 as [->|]; [by left|done].
    - apply HM2, Hin. destruct HM3' as [->|]; [by left|done]. }
  by rewrite Hmin, Hmax.
Qed.

(** X14.  The statistics do not depend on the order of the recordings: two
    sequences of RecordOperation calls that are permutations of each
    other give the same statistics. *)
Theorem GetBenchmarkStats_Permutation Duration_String numCPU parent workers0
    dbp0 calls calls' :
  NewDatabaseBenchmarkPool numCPU parent workers0 = Some dbp0 ->
  calls ≡ₚ calls' ->
  GetBenchmarkStats Duration_String (record_all calls dbp0)
  = GetBenchmarkStats Duration_String (record_all calls' dbp0).
Proof.
  intros Hnew Hp. destruct (new_benchmark_pool_empty _ _ _ _ Hnew) as [Ho Hd].
  apply map_eq. intros operation.
  rewrite !(stats_lookup _ _ _ _ Ho Hd).
  assert (Hrec : recorded operation calls ≡ₚ recorded operation calls').
  { unfold recorded. by rewrite Hp. }
  rewrite (Permutation_length Hrec).
  destruct (recorded operation calls) as [|d0 rest];
    destruct (recorded operation calls') as [|d0' rest']; simpl.
  - done.
  - by apply Permutation_nil_cons in Hrec.
  - symmetry in Hrec. by apply Permutation_nil_cons in Hrec.
  - by rewrite (summarize_Permutation _ _ _ _ Hrec).
Qed.

Lemma GetBenchmarkStats_Permutation_witness :
  GetBenchmarkStats nanoseconds
    (record_all [("insert", 5); ("insert", 10)] bench1)
  = GetBenchmarkStats nanoseconds
      (record_all [("insert", 10); ("insert", 5)] bench1).
Proof.
  apply (GetBenchmarkStats_Permutation nanoseconds 4 background 1 bench1).
  - reflexivity.
  - apply perm_swap.
Defined.



(** ** The results loop of testConcurrentOperations *)

Lemma succeeded_cons r results :
  succeeded (r :: results)
  = match Error r with
    | None => r :: succeeded results
    | Some _ => succeeded results
    end.
Proof. unfold succeeded. simpl. by destruct (Error r). Qed.

Lemma process_results_acc results successful totalDuration dbp :
  fold_left process_result results
    (wrap64 successful, wrap64 totalDuration, dbp)
  = (wrap64 (successful + Z.of_nat (length (succeeded results))),
     wrap64 (totalDuration + sum_durations (Duration <$> succeeded results)),
     record_all
       ((fun r => ("concurrent_create", Duration r)) <$> succeeded results)
       dbp).
Proof.
  revert successful totalDuration dbp.
  induction results as [|r results IH]; intros successful totalDuration dbp.
  - simpl. by rewrite !Z.add_0_r.
  - rewrite succeeded_cons. simpl. destruct (Error r); simpl.
    + apply IH.
    + rewrite !wrap64_add_l, IH.
      replace (successful + 1 + Z.of_nat (length (succeeded results)))
        with (successful + Z.of_nat (S (length (succeeded results)))) by lia.
      by rewrite <- Z.add_assoc.
Qed.

(** X16.  The loop of testConcurrentOperations over the collected results
    counts the results without an error, adds up their durations and
    records each of them, in order, under "concurrent_create"; results
    with an error are only reported.  When no result is without error the
    average that follows divides by zero and panics; otherwise (with
    fewer than 2^63 results) it is the truncating quotient of the total by
    the count. *)
Theorem avgDuration_of_results results dbp :
  let ok := succeeded results in
  let recorded_pool :=
    record_all ((fun r => ("concurrent_create", Duration r)) <$> ok) dbp in
  process_results results dbp
  = (wrap64 (Z.of_nat (length ok)),
     wrap64 (sum_durations (Duration <$> ok)), recorded_pool) /\
  (ok = [] ->
   avgDuration results dbp = panics "runtime error: integer divide by zero") /\
  (ok <> [] -> Z.of_nat (length ok) <= int64_max ->
   avgDuration results dbp
   = returns (wrap64 (Z.quot (wrap64 (sum_durations (Duration <$> ok)))
                        (Z.of_nat (length ok))),
              recorded_pool)).
Proof.
  intros ok recorded_pool.
  assert (Hp : process_results results dbp
               = (wrap64 (Z.of_nat (length ok)),
                  wrap64 (sum_durations (Duration <$> ok)), recorded_pool)).
  { unfold process_results. change 0 with (wrap64 0) at 1 2.
    by rewrite process_results_acc. }
  split; [done|]. unfold avgDuration. rewrite Hp. split.
  - intros ->. reflexivity.
  - intros Hne Hlen.
    assert (Hpos : 0 < Z.of_nat (length ok)).
    { destruct ok; [done|]. simpl. lia. }
    rewrite wrap64_id by (unfold is_int64, int64_min; lia).
    destruct (Z.eqb_spec (Z.of_nat (length ok)) 0); [lia|done].
Qed.

Lemma avgDuration_of_results_witness :
  avgDuration [mk_Result 1 nil_value (Some errRefused) 4] bench1
  = panics "runtime error: integer divide by zero" /\
  avgDuration
    [mk_Result 1 nil_value None 4; mk_Result 2 nil_value (Some errRefused) 9;
     mk_Result 3 nil_value None 7] bench1
  = returns (5, record_all [("concurrent_create", 4); ("concurrent_create", 7)]
                  bench1).
Proof.
  split.
  - apply (avgDuration_of_results
             [mk_Result 1 nil_value (Some errRefused) 4] bench1).
    reflexivity.
  - apply (avgDuration_of_results
             [mk_Result 1 nil_value None 4;
              mk_Result 2 nil_value (Some errRefused) 9;
              mk_Result 3 nil_value None 7] bench1).
    + discriminate.
    + unfold int64_max. simpl. lia.
Defined.

(** * Further properties of NewWorkerPool and Stats *)



(** X18.  Stats reports the pool as it is: in every state reached from a
    new pool, the worker count it reports is the one fixed at creation,
    the number of queued jobs lies between zero and the capacity of the
    job queue and is at most the number of jobs accepted so far, the
    number of ready results lies between zero and the capacity of the
    result channel, and the started flag is the pool's. *)
Theorem Stats_reports wp0 tr wp :
  created wp0 -> run wp0 tr wp ->
  exists queued ready,
    Stats wp
    = <["workers" := stat_int (workers wp0)]>
        (<["jobs_queued" := stat_int queued]>
           (<["results_ready" := stat_int ready]>
              (<["started" := stat_bool (started wp)]> ∅))) /\
    0 <= queued <= wrap64 (workers wp0 * 10) /\
    queued <= Z.of_nat (length (accepted tr)) /\
    0 <= ready <= wrap64 (workers wp0 * 2).
Proof.
  intros Hc Hrun.
  pose proof (run_inv _ _ _ (created_inv _ Hc) Hrun) as Hinv.
  assert (Hw : workers wp = workers wp0).
  { clear -Hrun. induction Hrun; [done|].
    by rewrite (step_workers _ _ _ H). }
  exists (len (jobQueue wp)), (len (results wp)).
  unfold Stats. rewrite Hw. split; [done|].
  rewrite <- Hw, <- (inv_cap_jobQueue _ Hinv), <- (inv_cap_results _ Hinv).
  pose proof (inv_len_jobQueue _ Hinv). pose proof (inv_len_results _ Hinv).
  pose proof (run_len_jobQueue _ _ _ Hc Hrun).
  unfold len in *. lia.
Qed.

Lemma Stats_reports_witness :
  exists queued ready,
    Stats (pool1_queued 3)
    = <["workers" := stat_int (workers pool1)]>
        (<["jobs_queued" := stat_int queued]>
           (<["results_ready" := stat_int ready]>
              (<["started" := stat_bool (started (pool1_queued 3))]> ∅))) /\
    0 <= queued <= wrap64 (workers pool1 * 10) /\
    queued
    <= Z.of_nat
         (length
            (accepted
               (call_Start
                :: replicate 3 (call_Submit endless_job (returns None))))) /\
    0 <= ready <= wrap64 (workers pool1 * 2).
Proof.
  apply (Stats_reports pool1
           (call_Start :: replicate 3 (call_Submit endless_job (returns None)))
           (pool1_queued 3)).
  - apply pool1_created.
  - apply pool1_queued_run. lia.
Defined.

(** ** No job twice *)

Lemma omap_insert_Permutation {A B} (f : A -> option B) l (i : nat) x y :
  l !! i = Some x ->
  exists rest,
    omap f l ≡ₚ option_list (f x) ++ rest /\
    omap f (<[i:=y]> l) ≡ₚ option_list (f y) ++ rest.
Proof.
  intros Hi. exists (omap f (take i l) ++ omap f (drop (S i) l)).
  rewrite insert_take_drop by (by eapply lookup_lt_Some).
  rewrite <- (take_drop_middle l i x Hi) at 1.
  rewrite !omap_app. simpl. split.
  - destruct (f x); simpl; [|done]. symmetry. apply Permutation_middle.
  - destruct (f y); simpl; [|done]. symmetry. apply Permutation_middle.
Qed.

Lemma omap_goroutine_id_replicate n : omap goroutine_id (replicate n Idle) = [].
Proof. induction n; simpl; auto. Qed.

Lemma submseteq_tail {A} (l : list A) : tail l ⊆+ l.
Proof. destruct l; simpl; [done|]. by apply submseteq_cons. Qed.

Lemma NoDup_submseteq_inv {A} (l k : list A) : l ⊆+ k -> NoDup k -> NoDup l.
Proof.
  intros Hsub Hnd. apply submseteq_Permutation in Hsub as [k' Hk'].
  rewrite Hk' in Hnd. by apply NoDup_app in Hnd as [? _].
Qed.

Lemma step_held_ids wp l wp' :
  step wp l wp' ->
  held_ids wp'
  ⊆+ held_ids wp
     ++ match accepted_job l with Some job => [ID job] | None => [] end.
Proof.
  unfold held_ids. intros Hstep. destruct Hstep.
  - simpl. rewrite app_nil_r.
    destruct (Start_fields wp) as (_ & _ & -> & -> & _).
    unfold Start. destruct (started wp); [done|]. simpl.
    destruct (spawn_workers_fields (Z.to_nat (workers wp)) wp)
      as (_ & _ & _ & _ & _ & _ & _ & ->).
    by rewrite omap_app, omap_goroutine_id_replicate, app_nil_r.
  - destruct (Submit_accepts _ _ _ _ H0) as [[-> ->]|[-> ->]]; simpl.
    + rewrite fmap_app. simpl. apply Permutation_submseteq.
      rewrite <- !app_assoc. apply Permutation_app_head. simpl.
      rewrite (app_assoc (omap _ _)). apply Permutation_cons_append.
    + by rewrite app_nil_r.
  - simpl. rewrite app_nil_r.
    pose proof (Stop_begin_fields wp) as Hf. rewrite H0 in Hf.
    pose proof (Stop_begin_goroutines wp) as Hg. rewrite H0 in Hg.
    destruct Hf as (_ & -> & -> & _). by destruct Hg as (-> & _).
  - simpl. rewrite app_nil_r.
    pose proof (Stop_begin_fields wp) as Hf. rewrite H0 in Hf.
    pose proof (Stop_begin_goroutines wp) as Hg. rewrite H0 in Hg.
    destruct Hf as (_ & -> & -> & _). by destruct Hg as (-> & _).
  - simpl. rewrite app_nil_r.
    pose proof (Stop_begin_fields wp) as Hf. rewrite H0 in Hf.
    pose proof (Stop_begin_goroutines wp) as Hg. rewrite H0 in Hg.
    destruct Hf as (_ & -> & -> & _). by destruct Hg as (-> & _).
  - simpl. rewrite app_nil_r.
    pose proof (Stop_end_fields wp) as Hf. rewrite H0 in Hf.
    by destruct Hf as (_ & -> & -> & _ & -> & _).
  - simpl. rewrite app_nil_r.
    pose proof (Stop_end_fields wp) as Hf. rewrite H0 in Hf.
    by destruct Hf as (_ & -> & -> & _ & -> & _).
  - simpl. rewrite app_nil_r. apply worker_cases_spec in H0.
    destruct H0 as [(job' & -> & Hhead & -> & ->)
                   |[(Ha & Hdead & ->)
                   |[(job' & r & -> & He & -> & ->)
                   |(r & -> & Hc & Hlt & -> & ->)]]]; simpl.
    + destruct (omap_insert_Permutation goroutine_id _ i _ (Executing job') H)
        as (rest & -> & ->). simpl.
      destruct (buf (jobQueue wp)) as [|j q]; [discriminate|].
      inversion Hhead; subst. simpl.
      apply Permutation_submseteq. symmetry. apply Permutation_middle.
    + destruct (omap_insert_Permutation goroutine_id _ i _ g' H)
        as (rest & -> & ->).
      assert (goroutine_id g' = None) as -> by (by destruct g').
      simpl. apply submseteq_skips_l, submseteq_skips_r, submseteq_inserts_l.
      done.
    + destruct (omap_insert_Permutation goroutine_id _ i _ (Delivering r) H)
        as (rest & -> & ->). simpl.
      unfold executeJob in He. destruct (TaskFunc job' _); [|discriminate].
      by inversion He.
    + destruct (omap_insert_Permutation goroutine_id _ i _ Idle H)
        as (rest & -> & ->). simpl. rewrite fmap_app. simpl.
      apply Permutation_submseteq. apply Permutation_app_head.
      rewrite app_assoc. symmetry. apply Permutation_cons_append.
  - simpl. rewrite app_nil_r.
    destruct (GetResult_pool _ _ _ H) as [->| ->]; [done|]. simpl.
    apply submseteq_skips_l, submseteq_skips_l.
    destruct (buf (results wp)); simpl; [done|]. by apply submseteq_cons.
  - simpl. by rewrite app_nil_r.
Qed.

(** X19.  No job twice.  In every state reached from a new pool the job
    IDs the pool holds, in the queue, with the workers and in the result
    channel, are among the IDs of the jobs accepted so far, each at most
    as often as it was accepted; so when the accepted jobs have distinct
    IDs, no job and no Result is in the pool twice. *)
Theorem no_job_twice wp0 tr wp :
  created wp0 -> run wp0 tr wp ->
  held_ids wp ⊆+ (ID <$> accepted tr) /\
  (NoDup (ID <$> accepted tr) -> NoDup (held_ids wp)).
Proof.
  intros Hc Hrun.
  assert (Hsub : held_ids wp ⊆+ (ID <$> accepted tr)).
  { induction Hrun as [wp0|wp0 tr wp1 l wp2 Hrun IH Hstep].
    - destruct (created_empty _ Hc) as (Hj & Hr & Hg & _).
      unfold held_ids. by rewrite Hj, Hr, Hg.
    - rewrite (step_held_ids _ _ _ Hstep), accepted_snoc, fmap_app.
      apply submseteq_app; [by apply IH|].
      by destruct (accepted_job l). }
  split; [done|]. by apply NoDup_submseteq_inv.
Qed.

Lemma no_job_twice_witness :
  held_ids pool1_busy
  ⊆+ (ID <$> accepted [call_Start; call_Submit endless_job (returns None);
                       worker_runs 0]) /\
  (NoDup (ID <$> accepted [call_Start; call_Submit endless_job (returns None);
                           worker_runs 0]) ->
   NoDup (held_ids pool1_busy)).
Proof.
  apply (no_job_twice pool1).
  - apply pool1_created.
  - apply pool1_busy_run.
Defined.
